(** * scikit-fem: quadrature-point fields and functional assembly

    A shallow embedding of

    - [skfem/element/discrete_field.py]  (class [DiscreteField]),
    - [skfem/assembly/form/functional.py] (class [Functional]),
    - [docs/examples/insulated.py]        (the insulated-wire example),

    together with the part of numpy these files call: C-ordered dense
    arrays, integer indexing on the leading axis, broadcasting
    multiplication, [np.zeros_like] and [np.sum(..., axis=1)].

    Array entries are kept abstract (any type with a zero, an addition, a
    multiplication and the summation routine of its dtype); nothing below
    depends on rounding. *)

From Stdlib Require Import List Arith PeanoNat Lia Bool ZArith Reals Lra.
Import ListNotations.

Set Implicit Arguments.

(* ================================================================== *)
(** * Python exceptions and fallible computations *)

(** The exceptions the modelled code can raise.  [UserError] stands for
    whatever a caller-supplied kernel or [Form.parameters] raises. *)
Inductive exn : Type :=
| AssertionError
| AttributeError
| TypeError
| ValueError
| IndexError
| AxisError
| UserError (tag : nat).

Inductive result (A : Type) : Type :=
| Ok (a : A)
| Raise (e : exn).

Arguments Ok {A} a.
Arguments Raise {A} e.

Definition rbind {A B} (m : result A) (k : A -> result B) : result B :=
  match m with
  | Ok a => k a
  | Raise e => Raise e
  end.

Definition rmap {A B} (g : A -> B) (m : result A) : result B :=
  rbind m (fun a => Ok (g a)).

Declare Scope result_scope.
Delimit Scope result_scope with res.
Notation "x <- m ;; k" := (rbind m (fun x => k))
  (at level 61, m at next level, right associativity) : result_scope.
Open Scope result_scope.

(** A comprehension [[g(x) for x in xs]] whose body may raise: elements are
    evaluated left to right and the first exception aborts the whole list. *)
Fixpoint mapM {A B} (g : A -> result B) (xs : list A) : result (list B) :=
  match xs with
  | [] => Ok []
  | x :: xs' => y <- g x ;; ys <- mapM g xs' ;; Ok (y :: ys)
  end.

(* ================================================================== *)
(** * Array entries *)

(** Besides its arithmetic, a dtype has its own summation of a contiguous
    run of entries, the inner loop of [np.add.reduce] along the last axis.
    Which additions that loop pairs is the dtype's business (in order for
    integers, pairwise in blocks for floats) and is not fixed here. *)
Class Scalar (E : Type) : Type := {
  zero : E;
  add : E -> E -> E;
  mul : E -> E -> E;
  add_reduce : list E -> E
}.

#[export] Instance Z_Scalar : Scalar Z :=
  {| zero := 0%Z; add := Z.add; mul := Z.mul;
     add_reduce := fun l => fold_left Z.add l 0%Z |}.

(* ================================================================== *)
(** * The numpy fragment *)

Module numpy.
Section Arrays.
Context {E : Type} {SR : Scalar E}.

(** A dense array: its shape and its entries in C (row-major) order. *)
Record ndarray : Type := mk_ndarray { shape : list nat; data : list E }.

(** Number of entries of an array of shape [s]. *)
Definition size_of (s : list nat) : nat := fold_right Nat.mul 1 s.

(** numpy's own invariant: the buffer holds exactly one entry per index. *)
Definition wf (a : ndarray) : Prop := length (data a) = size_of (shape a).

(** A Python number seen as a 0-dimensional array. *)
Definition scalar (x : E) : ndarray := mk_ndarray [] [x].

(** [np.zeros_like(x)] *)
Definition zeros_like (x : ndarray) : ndarray :=
  mk_ndarray (shape x) (repeat zero (size_of (shape x))).

(** [a.shape[0]] *)
Definition shape0 (a : ndarray) : result nat :=
  match shape a with
  | [] => Raise IndexError
  | n :: _ => Ok n
  end.

(** [a[i]] for a non-negative integer [i]: the [i]-th block of the leading
    axis. *)
Definition getitem (a : ndarray) (i : nat) : result ndarray :=
  match shape a with
  | [] => Raise IndexError
  | n :: s =>
      if i <? n
      then Ok (mk_ndarray s (firstn (size_of s) (skipn (i * size_of s) (data a))))
      else Raise IndexError
  end.

(** Flat position of a multi-index, and the entry found there. *)
Fixpoint ravel (s idx : list nat) : nat :=
  match s, idx with
  | _ :: s', i :: idx' => i * size_of s' + ravel s' idx'
  | _, _ => 0
  end.

Definition item (a : ndarray) (idx : list nat) : E :=
  nth (ravel (shape a) idx) (data a) zero.

(** ** Broadcasting *)

(** Shapes are right-aligned by padding the shorter one with leading 1s. *)
Definition pad (n : nat) (s : list nat) : list nat :=
  repeat 1 (n - length s) ++ s.

Definition bdim (a b : nat) : option nat :=
  if a =? b then Some a
  else if a =? 1 then Some b
  else if b =? 1 then Some a
  else None.

Fixpoint bshape (s1 s2 : list nat) : option (list nat) :=
  match s1, s2 with
  | [], [] => Some []
  | a :: s1', b :: s2' =>
      match bdim a b, bshape s1' s2' with
      | Some n, Some t => Some (n :: t)
      | _, _ => None
      end
  | _, _ => None
  end.

Definition broadcast_shapes (s1 s2 : list nat) : option (list nat) :=
  let n := Nat.max (length s1) (length s2) in
  bshape (pad n s1) (pad n s2).

(** [chunks sz k d]: the first [k] consecutive blocks of [sz] entries. *)
Fixpoint chunks (sz k : nat) (d : list E) : list (list E) :=
  match k with
  | 0 => []
  | S k' => firstn sz d :: chunks sz k' (skipn sz d)
  end.

(** Entries of an array of shape [src] stretched to shape [tgt] (same rank):
    an axis of length 1 is repeated, any other axis is kept. *)
Fixpoint tile (src tgt : list nat) (d : list E) : list E :=
  match src, tgt with
  | m :: s, n :: t =>
      if m =? n
      then flat_map (tile s t) (chunks (size_of s) m d)
      else concat (repeat (tile s t d) n)
  | _, _ => d
  end.

(** [np.broadcast_to(a, tgt)], entries only. *)
Definition broadcast_to (tgt : list nat) (a : ndarray) : list E :=
  tile (pad (length tgt) (shape a)) tgt (data a).

Fixpoint zip_with (g : E -> E -> E) (xs ys : list E) : list E :=
  match xs, ys with
  | x :: xs', y :: ys' => g x y :: zip_with g xs' ys'
  | _, _ => []
  end.

(** [a * b] on arrays ([np.multiply]). *)
Definition multiply (a b : ndarray) : result ndarray :=
  match broadcast_shapes (shape a) (shape b) with
  | Some s =>
      Ok (mk_ndarray s (zip_with mul (broadcast_to s a) (broadcast_to s b)))
  | None => Raise ValueError
  end.

(** The index at which a broadcast operand of shape [s] is read when the
    result is read at [idx]: leading result axes the operand lacks are
    dropped and an axis of length 1 is pinned to 0. *)
Fixpoint pin (s idx : list nat) : list nat :=
  match s, idx with
  | m :: s', i :: idx' => (if m =? 1 then 0 else i) :: pin s' idx'
  | _, _ => []
  end.

Definition bitem (a : ndarray) (idx : list nat) : E :=
  item a (pin (shape a) (skipn (length idx - length (shape a)) idx)).

(** [np.sum(a, axis=1)].  On an array of two axes the second axis is the
    contiguous one and every row is summed by the dtype's own routine.
    With further axes behind it, the blocks of the second axis are added
    one after the other, in order, onto zeros. *)
Definition sum_axis1 (a : ndarray) : result ndarray :=
  match shape a with
  | n0 :: n1 :: rest =>
      match rest with
      | [] => Ok (mk_ndarray [n0] (map add_reduce (chunks n1 n0 (data a))))
      | _ :: _ =>
          let inner := size_of rest in
          Ok (mk_ndarray (n0 :: rest)
                (flat_map
                   (fun blk => fold_left (zip_with add) (chunks inner n1 blk)
                                         (repeat zero inner))
                   (chunks (n1 * inner) n0 (data a))))
      end
  | _ => Raise AxisError
  end.

(** [len(a)]: the length of the leading axis; a 0-dimensional array has
    none. *)
Definition len (a : ndarray) : result nat :=
  match shape a with
  | [] => Raise TypeError
  | n :: _ => Ok n
  end.

(** [a + b] on arrays ([np.add]). *)
Definition np_add (a b : ndarray) : result ndarray :=
  match broadcast_shapes (shape a) (shape b) with
  | Some s =>
      Ok (mk_ndarray s (zip_with add (broadcast_to s a) (broadcast_to s b)))
  | None => Raise ValueError
  end.

(** [np.tile(a, (n, 1))]: an array of fewer than two axes is first given
    leading axes of length 1; the second-to-last axis is then repeated [n]
    times, block by block. *)
Definition np_tile_rows (a : ndarray) (n : nat) : ndarray :=
  let s := pad 2 (shape a) in
  let lead := firstn (length s - 2) s in
  let r := nth (length s - 2) s 1 in
  let c := nth (length s - 1) s 1 in
  mk_ndarray (lead ++ [n * r; c])
    (flat_map (fun blk => concat (repeat blk n))
       (chunks (r * c) (size_of lead) (data a))).

(** The multi-index of a flat position. *)
Fixpoint unravel (s : list nat) (k : nat) : list nat :=
  match s with
  | [] => []
  | _ :: s' => k / size_of s' :: unravel s' (k mod size_of s')
  end.

(** [a.T]: the axes are reversed. *)
Definition transpose (a : ndarray) : ndarray :=
  let s := rev (shape a) in
  mk_ndarray s (map (fun k => item a (rev (unravel s k))) (seq 0 (size_of s))).

End Arrays.
Arguments ndarray E : clear implicits.
End numpy.
Import numpy.

(* ================================================================== *)
(** * skfem/element/discrete_field.py *)

Module discrete_field.
Section Fields.
Context {E : Type} {SR : Scalar E}.

(** [class DiscreteField(NamedTuple)]: five optional arrays. *)
Record DiscreteField : Type := mk_DiscreteField {
  value : option (ndarray E);
  grad : option (ndarray E);
  div : option (ndarray E);
  curl : option (ndarray E);
  ggrad : option (ndarray E)
}.

(** Iterating over the tuple ([for f in self]). *)
Definition fields (d : DiscreteField) : list (option (ndarray E)) :=
  [value d; grad d; div d; curl d; ggrad d].

(** The constructor called on an unpacked argument list: positional
    arguments fill the slots from the left, missing ones default to [None], a sixth one is a [TypeError]. *)
Definition new (args : list (option (ndarray E))) : result DiscreteField :=
  if length args <=? 5
  then Ok (mk_DiscreteField (nth 0 args None) (nth 1 args None)
             (nth 2 args None) (nth 3 args None) (nth 4 args None))
  else Raise TypeError.

Definition f (self : DiscreteField) : option (ndarray E) := value self.

Definition df (self : DiscreteField) : option (ndarray E) :=
  match grad self with
  | Some g => Some g
  | None =>
      match div self with
      | Some d => Some d
      | None =>
          match curl self with
          | Some c => Some c
          | None => None
          end
      end
  end.

Definition ddf (self : DiscreteField) : option (ndarray E) := ggrad self.

Definition __array__ (self : DiscreteField) : option (ndarray E) := f self.

(** The Python values that meet a [DiscreteField] in a product. *)
Inductive pyobj : Type :=
| PyNone
| PyScalar (x : E)
| PyArray (a : ndarray E)
| PyField (d : DiscreteField).

Definition of_option (o : option (ndarray E)) : pyobj :=
  match o with
  | Some a => PyArray a
  | None => PyNone
  end.

(** [None] against an array: numpy takes the product entry by entry over
    objects, so the [TypeError] is raised at the first entry, and an array
    without entries gives an empty array of its own shape. *)
Definition none_times (a : ndarray E) : result pyobj :=
  if size_of (shape a) =? 0
  then Ok (PyArray (mk_ndarray (shape a) []))
  else Raise TypeError.

(** [x * y] when neither operand is a [DiscreteField]: numbers and arrays
    multiply (a number broadcasts as a 0-d array); [None] against a number
    or [None] is a [TypeError], against an array see [none_times]. *)
Definition raw_mul (x y : pyobj) : result pyobj :=
  match x, y with
  | PyScalar a, PyScalar b => Ok (PyScalar (mul a b))
  | PyScalar a, PyArray b => rmap PyArray (multiply (scalar a) b)
  | PyArray a, PyScalar b => rmap PyArray (multiply a (scalar b))
  | PyArray a, PyArray b => rmap PyArray (multiply a b)
  | PyNone, PyArray a => none_times a
  | PyArray a, PyNone => none_times a
  | _, _ => Raise TypeError
  end.

Definition __mul__ (self : DiscreteField) (other : pyobj) : result pyobj :=
  match other with
  | PyField o => raw_mul (of_option (f self)) (of_option (f o))
  | _ => raw_mul (of_option (f self)) other
  end.

Definition __rmul__ : DiscreteField -> pyobj -> result pyobj := __mul__.

(** The expression [x * y].  A [DiscreteField] on the left runs its
    [__mul__].  With a field on the right, a Python number (and [None])
    has no product with it and Python falls back on the field's
    [__rmul__]; an array does not defer: its own multiplication converts
    the field through [__array__], and refuses with a [ValueError] a
    conversion that returns no array. *)
Definition py_mul (x y : pyobj) : result pyobj :=
  match x, y with
  | PyField d, _ => __mul__ d y
  | PyArray _, PyField d =>
      match __array__ d with
      | Some v => raw_mul x (PyArray v)
      | None => Raise ValueError
      end
  | _, PyField d => __rmul__ d x
  | _, _ => raw_mul x y
  end.

Definition present (l : list (option (ndarray E))) : list (ndarray E) :=
  flat_map (fun o => match o with Some a => [a] | None => [] end) l.

(** [_split]: the split count is read off [self.f] before anything else;
    for each [i] the components that are not [None] are indexed at [i] and
    handed to the constructor positionally. *)
Definition _split (self : DiscreteField) : result (list DiscreteField) :=
  match f self with
  | None => Raise AttributeError
  | Some v =>
      n <- shape0 v ;;
      mapM (fun i =>
              comps <- mapM (fun c => getitem c i) (present (fields self)) ;;
              new (map Some comps))
           (seq 0 n)
  end.

Definition zero_or_none (x : option (ndarray E)) : option (ndarray E) :=
  match x with
  | None => None
  | Some a => Some (zeros_like a)
  end.

Definition zeros_like (self : DiscreteField) : result DiscreteField :=
  new (map zero_or_none (fields self)).

End Fields.
Arguments DiscreteField E : clear implicits.
Arguments pyobj E : clear implicits.
End discrete_field.
Import discrete_field.

(* ================================================================== *)
(** * Calls into code that may raise and may have effects *)

(** A computation over an explicit world state [S]: it returns the new
    state and either a value or the exception that aborted it. *)
Definition M (S A : Type) : Type := S -> S * result A.

Definition ret {S A} (a : A) : M S A := fun s => (s, Ok a).

Definition raise {S A} (e : exn) : M S A := fun s => (s, Raise e).

Definition bind {S A B} (m : M S A) (k : A -> M S B) : M S B :=
  fun s =>
    match m s with
    | (s', Ok a) => k a s'
    | (s', Raise e) => (s', Raise e)
    end.

Definition lift {S A} (r : result A) : M S A := fun s => (s, r).

Declare Scope m_scope.
Delimit Scope m_scope with M.
Notation "x <~ m ;; k" := (bind m (fun x => k))
  (at level 61, m at next level, right associativity) : m_scope.

(* ================================================================== *)
(** * skfem/assembly/form/functional.py *)

Module functional.
Section Assemble.
Context {E : Type} {SR : Scalar E}.

(** The collaborators the module imports: [GlobalBasis] with its [dx]
    attribute, [FormParameters], and, from the base class [Form], the
    attribute [form] (the wrapped kernel) and the method [parameters].
    They are arbitrary here, and may raise or act on the world. *)
Variable World : Type.
Variable GlobalBasis : Type.
Variable FormParameters : Type.
Variable W : Type.
Variable dx : GlobalBasis -> ndarray E.

Record Functional : Type := mk_Functional {
  form : FormParameters -> M World (pyobj E)
}.

Variable parameters : Functional -> W -> GlobalBasis -> M World FormParameters.

(** [np.sum(x, axis=1)] on the value of a product. *)
Definition np_sum_axis1 (x : pyobj E) : result (ndarray E) :=
  match x with
  | PyArray a => sum_axis1 a
  | PyScalar _ => Raise AxisError
  | _ => Raise TypeError
  end.

Definition kernel (self : Functional) (w : FormParameters) (dx : ndarray E)
  : M World (ndarray E) :=
  (fw <~ form self w ;;
   prod <~ lift (py_mul fw (PyArray dx)) ;;
   lift (np_sum_axis1 prod))%M.

Definition assemble (self : Functional) (ubasis : GlobalBasis)
    (vbasis : option GlobalBasis) (w : W) (nthreads : option Z)
  : M World (ndarray E) :=
  match vbasis with
  | Some _ => raise AssertionError
  | None =>
      let vbasis := ubasis in
      (p <~ parameters self w vbasis ;;
       kernel self p (dx vbasis))%M
  end.

(** [def functional(form)] *)
Definition functional (form : FormParameters -> M World (pyobj E)) : Functional :=
  mk_Functional form.

End Assemble.
Arguments Functional E World FormParameters : clear implicits.
End functional.

(* ================================================================== *)
(** * docs/examples/insulated.py *)

(** The kernels and the helper [elemental] of the example, then its
    module-level constants and the expression stored under ['exact'], read
    over the real numbers. *)
Module insulated.

Section Kernels.
Context {E : Type} {SR : Scalar E}.

(** The parameter bundle handed to a kernel; the kernels below read its
    attribute [w].  The class is defined outside this development. *)
Variable FormParameters : Type.
Variable w_of : FormParameters -> ndarray E.

(** [x + y] on numbers and arrays. *)
Definition py_add (x y : pyobj E) : result (pyobj E) :=
  match x, y with
  | PyScalar a, PyScalar b => Ok (PyScalar (add a b))
  | PyScalar a, PyArray b => rmap PyArray (np_add (scalar a) b)
  | PyArray a, PyScalar b => rmap PyArray (np_add a (scalar b))
  | PyArray a, PyArray b => rmap PyArray (np_add a b)
  | _, _ => Raise TypeError
  end.

(** The builtin [sum(a)] on an array: [0 + a[0] + a[1] + ...], the blocks
    of the leading axis taken in order; a 0-dimensional array cannot be
    iterated. *)
Definition py_sum (a : ndarray E) : result (pyobj E) :=
  match shape a with
  | [] => Raise TypeError
  | n :: _ =>
      fold_left
        (fun acc i => r <- acc ;; x <- getitem a i ;; py_add r (PyArray x))
        (seq 0 n) (Ok (PyScalar zero))
  end.

(** [def conduction(u, du, v, dv, w): return w.w * sum(du * dv)] *)
Definition conduction (u du v dv : ndarray E) (w : FormParameters)
  : result (pyobj E) :=
  p <- multiply du dv ;;
  t <- py_sum p ;;
  raw_mul (PyArray (w_of w)) t.

(** [def generation(v, dv, w): return w.w * v] *)
Definition generation (v dv : ndarray E) (w : FormParameters)
  : result (ndarray E) :=
  multiply (w_of w) v.

(** [def elemental(x): return np.tile(x, (len(basis.W), 1)).T], with [W]
    the quadrature weights of the module-level basis. *)
Definition elemental (W x : ndarray E) : result (ndarray E) :=
  n <- len W ;;
  Ok (transpose (np_tile_rows x n)).

End Kernels.

Local Open Scope R_scope.

Definition radii : list R := [2; 3].
Definition joule_heating : R := 5.
Definition heat_transfer_coefficient : R := 7.
Definition thermal_conductivity : list R := [101; 11].

Definition exact : R :=
  joule_heating * (nth 0 radii 0) ^ 2 / 4 / nth 0 thermal_conductivity 0 *
  (2 * nth 0 thermal_conductivity 0 / heat_transfer_coefficient / nth 1 radii 0
   + (2 * nth 0 thermal_conductivity 0 / nth 1 thermal_conductivity 0
      * ln (nth 1 radii 0 / nth 0 radii 0)) + 1).

End insulated.

Import functional.

(* ================================================================== *)
(** * Vocabulary of the statements *)

(** What it means for a slot to have been zeroed: an absent slot stays
    absent, a present one keeps its shape and holds one zero per entry. *)
Definition zeroed_slot {E} {SR : Scalar E} (o o' : option (ndarray E)) : Prop :=
  match o, o' with
  | None, None => True
  | Some x, Some y =>
      shape y = shape x /\ wf y /\ Forall (fun v => v = zero) (data y)
  | _, _ => False
  end.

(** The first element of a list of optional values that is present. *)
Fixpoint first_present {A} (l : list (option A)) : option A :=
  match l with
  | [] => None
  | Some a :: _ => Some a
  | None :: l' => first_present l'
  end.

Section SplitDefinitions.
Context {E : Type} {SR : Scalar E}.

(** A multi-index [idx] addresses an entry of an array of shape [s]. *)
Definition in_range (s idx : list nat) : Prop := Forall2 lt idx s.

(** [x] is block [i] of the leading axis of [a]. *)
Definition is_slice (i : nat) (a x : ndarray E) : Prop :=
  shape x = tl (shape a) /\
  forall idx, in_range (shape x) idx -> item x idx = item a (i :: idx).

(** Slot [o'] holds block [i] of slot [o], or both are absent. *)
Definition slice_of_slot (i : nat) (o o' : option (ndarray E)) : Prop :=
  match o, o' with
  | None, None => True
  | Some a, Some x => is_slice i a x
  | _, _ => False
  end.

(** Every present component has leading-axis length [n]. *)
Definition common_leading (d : DiscreteField E) (n : nat) : Prop :=
  forall a, In (Some a) (fields d) -> hd_error (shape a) = Some n.

(** No absent slot comes before a present one. *)
Fixpoint packed (l : list (option (ndarray E))) : bool :=
  match l with
  | [] => true
  | Some _ :: l' => packed l'
  | None :: l' => forallb (fun o => match o with None => true | Some _ => false end) l'
  end.

(** The split of [d] is a sequence of [n] fields, the [i]-th holding block
    [i] of every present component of [d] in that component's own slot. *)
Definition splits_in_place (d : DiscreteField E) (n : nat) : Prop :=
  exists l,
    _split d = Ok l /\
    length l = n /\
    forall i r, nth_error l i = Some r ->
      slice_of_slot i (value d) (value r) /\
      slice_of_slot i (grad d) (grad r) /\
      slice_of_slot i (div d) (div r) /\
      slice_of_slot i (curl d) (curl r) /\
      slice_of_slot i (ggrad d) (ggrad r).

(** The array [a[i]] evaluates to when [i] is in range. *)
Definition slice (i : nat) (a : ndarray E) : ndarray E :=
  mk_ndarray (tl (shape a))
    (firstn (size_of (tl (shape a)))
       (skipn (i * size_of (tl (shape a))) (data a))).

(** What [_split] builds at position [i]: the blocks of the present
    components, in order, from the first slot on. *)
Definition split_at (d : DiscreteField E) (i : nat) : DiscreteField E :=
  let args := map Some (map (slice i) (present (fields d))) in
  mk_DiscreteField (nth 0 args None) (nth 1 args None) (nth 2 args None)
    (nth 3 args None) (nth 4 args None).

End SplitDefinitions.

(** Axis by axis, the operand shape either agrees with the target or is 1. *)
Definition stretches (src tgt : list nat) : Prop :=
  Forall2 (fun m n => m = n \/ m = 1) src tgt.

(** [sum(l)], accumulated from the left. *)
Definition sum_list {E} {SR : Scalar E} (l : list E) : E := fold_left add l zero.

(** A number or array returned by a kernel, seen as an array. *)
Definition as_array {E} (c : pyobj E) : option (ndarray E) :=
  match c with
  | PyScalar x => Some (scalar x)
  | PyArray a => Some a
  | _ => None
  end.

(** Every block [a[i]] with [i < n] exists. *)
Definition covers {E} (n : nat) (a : ndarray E) : bool :=
  match shape a with
  | m :: _ => n <=? m
  | [] => false
  end.

(** A split into [n] pieces can index every present component. *)
Definition fits {E} (d : DiscreteField E) (n : nat) : bool :=
  (n =? 0) || forallb (covers n) (present (fields d)).

(** The array a kernel value contributes to the integrand: a number or an
    array itself, a field through its value. *)
Definition integrand {E} (c : pyobj E) : option (ndarray E) :=
  match c with
  | PyField d => value d
  | _ => as_array c
  end.

(** The central temperature of Carslaw and Jaeger, section 7.2.V. *)
Definition closed_form (A a b k0 k1 h : R) : R :=
  (A * a ^ 2 / (4 * k0) * (2 * k0 / (h * b) + 2 * k0 / k1 * ln (b / a) + 1))%R.

(* ================================================================== *)
(** * Concrete inputs *)

Definition grid23 : ndarray Z :=
  mk_ndarray [2; 3] [1; 2; 3; 4; 5; 6]%Z.

Definition grid23' : ndarray Z :=
  mk_ndarray [2; 3] [10; 20; 30; 40; 50; 60]%Z.

Definition no_value_field : DiscreteField Z :=
  mk_DiscreteField None (Some grid23) None None None.

Definition gap_field : DiscreteField Z :=
  mk_DiscreteField (Some grid23) None (Some grid23') None None.

Definition packed_field : DiscreteField Z :=
  mk_DiscreteField (Some grid23) (Some grid23') None None None.

(** A world that records calls: [1] for [Form.parameters], [2] for the
    kernel. *)
Definition call_log : Type := list nat.

Definition logging_parameters (F : Functional Z call_log unit) (w : unit)
    (basis : ndarray Z) : M call_log unit :=
  fun s => (s ++ [1], Ok tt).

Definition row3 : ndarray Z := mk_ndarray [3] [10; 20; 30]%Z.

Definition row_kernel : Functional Z call_log unit :=
  functional (fun _ s => (s ++ [2], Ok (PyArray row3))).

Definition field_a : DiscreteField Z :=
  mk_DiscreteField (Some grid23) (Some grid23') None None (Some row3).

Definition field_b : DiscreteField Z :=
  mk_DiscreteField (Some grid23') None (Some row3) None None.

Definition gap_piece0 : DiscreteField Z :=
  mk_DiscreteField (Some (mk_ndarray [3] [1; 2; 3]%Z))
    (Some (mk_ndarray [3] [10; 20; 30]%Z)) None None None.

Definition gap_piece1 : DiscreteField Z :=
  mk_DiscreteField (Some (mk_ndarray [3] [4; 5; 6]%Z))
    (Some (mk_ndarray [3] [40; 50; 60]%Z)) None None None.

Definition field_kernel : Functional Z call_log unit :=
  functional (fun _ s => (s ++ [2], Ok (PyField field_a))).

Definition value_kernel : Functional Z call_log unit :=
  functional (fun _ s => (s ++ [2], Ok (PyArray grid23))).


Definition components223 : ndarray Z :=
  mk_ndarray [2; 2; 3] [1; 2; 3; 4; 5; 6; 7; 8; 9; 10; 11; 12]%Z.

Definition components223' : ndarray Z :=
  mk_ndarray [2; 2; 3] [2; 0; 1; 3; 1; 0; 1; 1; 2; 0; 4; 1]%Z.

Definition weights3 : ndarray Z := mk_ndarray [3] [1; 1; 1]%Z.

Definition per_element2 : ndarray Z := mk_ndarray [2] [101; 11]%Z.

Definition component_kernel : Functional Z call_log unit :=
  functional (fun _ s => (s ++ [2], Ok (PyArray components223))).



(* ================================================================== *)
(** * Facts about the numpy fragment *)

Section ArrayLemmas.
Context {E : Type} {SR : Scalar E}.
Implicit Types (a b : ndarray E) (s : list nat) (d : list E).

Lemma size_of_cons n s : size_of (n :: s) = n * size_of s.
Proof. reflexivity. Qed.

Lemma size_of_ones k : size_of (repeat 1 k) = 1.
Proof.
  induction k as [|k IH]; [reflexivity|].
  cbn [repeat]. now rewrite size_of_cons, IH.
Qed.

Lemma pad_length_self s : pad (length s) s = s.
Proof. unfold pad. now rewrite Nat.sub_diag. Qed.

Lemma bdim_same n : bdim n n = Some n.
Proof. unfold bdim. now rewrite Nat.eqb_refl. Qed.

Lemma bdim_comm m n : bdim m n = bdim n m.
Proof.
  unfold bdim.
  destruct (Nat.eqb_spec m n) as [->|Hmn].
  - now rewrite Nat.eqb_refl.
  - destruct (Nat.eqb_spec n m) as [->|_]; [congruence|].
    destruct (Nat.eqb_spec m 1) as [->|_], (Nat.eqb_spec n 1) as [->|_];
      congruence.
Qed.

Lemma bdim_one_r n : bdim n 1 = Some n.
Proof.
  unfold bdim. destruct (Nat.eqb_spec n 1) as [->|_]; reflexivity.
Qed.

Lemma bshape_same s : bshape s s = Some s.
Proof.
  induction s as [|n s IH]; cbn; [reflexivity|].
  now rewrite bdim_same, IH.
Qed.

Lemma bshape_comm s1 s2 : bshape s1 s2 = bshape s2 s1.
Proof.
  revert s2. induction s1 as [|m s1 IH]; intros [|n s2]; cbn; try reflexivity.
  now rewrite bdim_comm, IH.
Qed.

Lemma bshape_ones_r s : bshape s (repeat 1 (length s)) = Some s.
Proof.
  induction s as [|n s IH]; cbn; [reflexivity|].
  now rewrite bdim_one_r, IH.
Qed.

Lemma broadcast_shapes_same s : broadcast_shapes s s = Some s.
Proof.
  unfold broadcast_shapes. rewrite Nat.max_id, pad_length_self.
  apply bshape_same.
Qed.

Lemma broadcast_shapes_comm s1 s2 :
  broadcast_shapes s1 s2 = broadcast_shapes s2 s1.
Proof.
  unfold broadcast_shapes. rewrite (Nat.max_comm (length s1)).
  apply bshape_comm.
Qed.

Lemma broadcast_shapes_scalar_r s : broadcast_shapes s [] = Some s.
Proof.
  unfold broadcast_shapes. cbn [length]. rewrite Nat.max_0_r, pad_length_self.
  unfold pad. cbn [length]. rewrite Nat.sub_0_r, app_nil_r.
  apply bshape_ones_r.
Qed.

(** Cutting a buffer into blocks and gluing the blocks back. *)
Lemma flat_map_chunks_id (g : list E -> list E) sz :
  (forall c, length c = sz -> g c = c) ->
  forall k d, length d = k * sz -> flat_map g (chunks sz k d) = d.
Proof.
  intros Hg. induction k as [|k IH]; intros d Hd; cbn.
  - destruct d; [reflexivity|discriminate].
  - rewrite Hg, IH.
    + apply firstn_skipn.
    + rewrite length_skipn. lia.
    + rewrite length_firstn. lia.
Qed.

Lemma tile_same s : forall d, length d = size_of s -> tile s s d = d.
Proof.
  induction s as [|n s IH]; intros d Hd; cbn [tile]; [reflexivity|].
  rewrite Nat.eqb_refl. apply flat_map_chunks_id; assumption.
Qed.

Lemma concat_repeat_repeat (x : E) m n :
  concat (repeat (repeat x m) n) = repeat x (n * m).
Proof.
  induction n as [|n IH]; cbn; [reflexivity|].
  now rewrite IH, repeat_app.
Qed.

(** A 0-dimensional operand is stretched to one copy per entry. *)
Lemma tile_ones s (x : E) :
  tile (repeat 1 (length s)) s [x] = repeat x (size_of s).
Proof.
  induction s as [|n s IH]; [reflexivity|].
  cbn [length repeat tile]. rewrite size_of_cons.
  destruct (Nat.eqb_spec 1 n) as [<-|_].
  - cbn [chunks flat_map]. rewrite size_of_ones. cbn [firstn].
    rewrite IH, app_nil_r. now rewrite Nat.mul_1_l.
  - rewrite IH. apply concat_repeat_repeat.
Qed.

Lemma zip_with_comm (g : E -> E -> E) :
  (forall x y, g x y = g y x) ->
  forall xs ys, zip_with g xs ys = zip_with g ys xs.
Proof.
  intros Hg. induction xs as [|x xs IH]; intros [|y ys]; cbn; try reflexivity.
  now rewrite Hg, IH.
Qed.

Lemma zip_with_repeat_r (g : E -> E -> E) (x : E) xs :
  zip_with g xs (repeat x (length xs)) = map (fun e => g e x) xs.
Proof.
  induction xs as [|e xs IH]; cbn; [reflexivity|]. now rewrite IH.
Qed.

(** Operands of one shape multiply entry by entry. *)
Lemma multiply_same_shape a b :
  shape a = shape b -> wf a -> wf b ->
  multiply a b = Ok (mk_ndarray (shape a) (zip_with mul (data a) (data b))).
Proof.
  intros Hs Ha Hb. unfold multiply, broadcast_to.
  rewrite <- Hs, broadcast_shapes_same, pad_length_self.
  rewrite !tile_same; [reflexivity| |assumption].
  now rewrite Hs.
Qed.

(** A number multiplies every entry. *)
Lemma multiply_scalar_r a (x : E) :
  wf a ->
  multiply a (scalar x)
  = Ok (mk_ndarray (shape a) (map (fun e => mul e x) (data a))).
Proof.
  intros Ha. unfold multiply, broadcast_to. cbn [shape data scalar].
  rewrite broadcast_shapes_scalar_r, pad_length_self.
  rewrite tile_same by assumption.
  unfold pad. cbn [length]. rewrite Nat.sub_0_r, app_nil_r, tile_ones.
  rewrite <- Ha. now rewrite zip_with_repeat_r.
Qed.

Lemma multiply_comm :
  (forall x y : E, mul x y = mul y x) ->
  forall a b, multiply a b = multiply b a.
Proof.
  intros Hmul a b. unfold multiply.
  rewrite (broadcast_shapes_comm (shape a)).
  destruct (broadcast_shapes (shape b) (shape a)) as [s|]; [|reflexivity].
  now rewrite (zip_with_comm _ Hmul).
Qed.

End ArrayLemmas.

Section SplitProperties.
Context {E : Type} {SR : Scalar E}.
Implicit Types (d : DiscreteField E) (a x : ndarray E).

Lemma mapM_ok {A B} (g : A -> result B) (h : A -> B) (xs : list A) :
  (forall u, In u xs -> g u = Ok (h u)) -> mapM g xs = Ok (map h xs).
Proof.
  induction xs as [|u xs IH]; intros Hg; cbn; [reflexivity|].
  rewrite Hg by now left. cbn.
  rewrite IH by (intros y Hy; apply Hg; now right). reflexivity.
Qed.

Lemma getitem_slice a i n :
  hd_error (shape a) = Some n -> i < n -> getitem a i = Ok (slice i a).
Proof.
  unfold getitem, slice. destruct (shape a) as [|m s]; cbn [hd_error tl];
    [discriminate|].
  intros [= ->] Hi. apply Nat.ltb_lt in Hi. now rewrite Hi.
Qed.

Lemma ravel_lt s : forall idx, in_range s idx -> ravel s idx < size_of s.
Proof.
  unfold in_range.
  induction s as [|n s IH]; intros idx H; inversion H; subst; cbn [ravel].
  - cbn. lia.
  - rewrite size_of_cons. specialize (IH _ H4). nia.
Qed.

Lemma slice_is_slice a i n :
  hd_error (shape a) = Some n -> is_slice i a (slice i a).
Proof.
  intros Hn. split; [reflexivity|].
  intros idx Hidx. unfold item, slice in *. cbn [shape data] in *.
  destruct (shape a) as [|m s]; [discriminate|]. cbn [tl ravel] in *.
  pose proof (ravel_lt Hidx) as Hlt.
  rewrite nth_firstn. apply Nat.ltb_lt in Hlt. rewrite Hlt.
  now rewrite nth_skipn.
Qed.

Lemma present_length (l : list (option (ndarray E))) :
  length (present l) <= length l.
Proof.
  unfold present. induction l as [|[a|] l IH]; cbn in *; lia.
Qed.

Lemma present_In (l : list (option (ndarray E))) a :
  In a (present l) -> In (Some a) l.
Proof.
  unfold present.
  induction l as [|[b|] l IH]; cbn; intros H; [contradiction| |right; now apply IH].
  destruct H as [->|H]; [now left|right; now apply IH].
Qed.

(** What [_split] returns on any field it accepts. *)
Lemma split_general d v n :
  value d = Some v -> common_leading d n ->
  _split d = Ok (map (split_at d) (seq 0 n)).
Proof.
  intros Hv Hn. unfold _split, f. rewrite Hv.
  assert (Hv0 : shape0 v = Ok n).
  { unfold shape0. specialize (Hn v). unfold fields in Hn. rewrite Hv in Hn.
    specialize (Hn (or_introl eq_refl)).
    destruct (shape v); [discriminate|]. cbn in Hn. congruence. }
  rewrite Hv0. cbn [rbind].
  apply mapM_ok. intros i Hi. apply in_seq in Hi.
  rewrite (mapM_ok (fun c => getitem c i) (slice i)).
  - cbn [rbind]. unfold new, split_at.
    pose proof (present_length (fields d)) as Hlen. cbn [fields length] in Hlen.
    rewrite !length_map.
    destruct (Nat.leb_spec (length (present (fields d))) 5); [reflexivity|lia].
  - intros c Hc. apply getitem_slice with (n := n); [|lia].
    apply Hn. now apply present_In.
Qed.

End SplitProperties.

Section BlockLemmas.
Context {E : Type}.
Implicit Types (d : list E) (ls : list (list E)).

Lemma chunks_length sz k : forall d, length (chunks sz k d) = k.
Proof.
  induction k as [|k IH]; intros d; cbn; [reflexivity|]. now rewrite IH.
Qed.

Lemma chunks_nth sz k : forall d i,
  i < k -> nth i (chunks sz k d) [] = firstn sz (skipn (i * sz) d).
Proof.
  induction k as [|k IH]; intros d i Hi; [lia|].
  destruct i as [|i]; cbn [chunks nth].
  - reflexivity.
  - rewrite IH by lia. rewrite skipn_skipn. f_equal. f_equal. cbn. lia.
Qed.

Lemma chunks_In_length sz k : forall d c,
  length d = k * sz -> In c (chunks sz k d) -> length c = sz.
Proof.
  induction k as [|k IH]; intros d c Hd Hc; cbn in Hc; [contradiction|].
  destruct Hc as [<-|Hc].
  - rewrite length_firstn. lia.
  - apply IH with (d := skipn sz d); [|assumption].
    rewrite length_skipn. lia.
Qed.

Lemma length_concat_uniform len ls :
  (forall l, In l ls -> length l = len) ->
  length (concat ls) = length ls * len.
Proof.
  induction ls as [|l ls IH]; intros H; cbn; [reflexivity|].
  rewrite length_app, H by now left.
  rewrite IH by (intros l' Hl'; apply H; now right). reflexivity.
Qed.

Lemma nth_concat_uniform len (z : E) ls :
  (forall l, In l ls -> length l = len) ->
  forall i r, i < length ls -> r < len ->
  nth (i * len + r) (concat ls) z = nth r (nth i ls []) z.
Proof.
  induction ls as [|l ls IH]; intros H i r Hi Hr; cbn in Hi; [lia|].
  cbn [concat]. destruct i as [|i].
  - cbn [nth Nat.mul Nat.add]. apply app_nth1. rewrite H by now left. exact Hr.
  - cbn [nth]. rewrite app_nth2; rewrite H by now left.
    + replace (S i * len + r - len) with (i * len + r) by lia.
      apply IH; [intros l' Hl'; apply H; now right|lia|exact Hr].
    + lia.
Qed.

Lemma In_repeat_eq (x y : list E) n : In y (repeat x n) -> y = x.
Proof. intros H. now apply repeat_spec in H. Qed.

End BlockLemmas.

Section BroadcastLemmas.
Context {E : Type} {SR : Scalar E}.
Implicit Types (a : ndarray E) (s t src tgt idx : list nat) (d : list E).

Lemma tile_length src : forall tgt d,
  stretches src tgt -> length d = size_of src ->
  length (tile src tgt d) = size_of tgt.
Proof.
  unfold stretches.
  induction src as [|m s IH]; intros tgt d Hc Hd; inversion Hc as [|? n ? t Hmn Hst]; subst.
  - exact Hd.
  - cbn [tile]. rewrite !size_of_cons in *.
    destruct (Nat.eqb_spec m n) as [->|Hne].
    + rewrite flat_map_concat_map.
      rewrite (length_concat_uniform (len := size_of t)).
      * now rewrite length_map, chunks_length.
      * intros l Hl. apply in_map_iff in Hl as (c & <- & Hc').
        apply IH; [assumption|].
        now apply chunks_In_length with (k := n) (d := d).
    + destruct Hmn as [-> | ->]; [congruence|].
      rewrite (length_concat_uniform (len := size_of t)).
      * now rewrite repeat_length.
      * intros l Hl. apply In_repeat_eq in Hl as ->.
        apply IH; [assumption|lia].
Qed.

Lemma pin_in_range src : forall tgt idx,
  stretches src tgt -> in_range tgt idx -> in_range src (pin src idx).
Proof.
  unfold stretches, in_range.
  induction src as [|m s IH]; intros tgt idx Hc Hi;
    inversion Hc as [|? n ? t Hmn Hst]; subst;
    inversion Hi as [|i ? idx' ? Hin Hrest]; subst; cbn [pin].
  - constructor.
  - constructor; [|now apply IH with (tgt := t)].
    destruct (Nat.eqb_spec m 1) as [->|Hne]; [lia|].
    destruct Hmn as [-> | ->]; [exact Hin|congruence].
Qed.

(** The entry of a stretched operand at [idx] is the entry of the operand
    at the pinned index. *)
Lemma tile_nth (z : E) src : forall tgt d idx,
  stretches src tgt -> length d = size_of src -> in_range tgt idx ->
  nth (ravel tgt idx) (tile src tgt d) z = nth (ravel src (pin src idx)) d z.
Proof.
  induction src as [|m s IH]; intros tgt d idx Hc Hd Hi;
    inversion Hc as [|? n ? t Hmn Hst]; subst;
    inversion Hi as [|i ? idx' ? Hin Hrest]; subst.
  - reflexivity.
  - cbn [tile pin ravel]. rewrite size_of_cons in Hd.
    pose proof (ravel_lt Hrest) as Hr.
    pose proof (ravel_lt (pin_in_range Hst Hrest)) as Hr'.
    destruct (Nat.eqb_spec m n) as [->|Hne].
    + rewrite flat_map_concat_map.
      rewrite (nth_concat_uniform (len := size_of t)).
      * rewrite (nth_indep _ _ (tile s t [])) by now rewrite length_map, chunks_length.
        rewrite map_nth, chunks_nth by exact Hin.
        rewrite IH; [|exact Hst| |exact Hrest].
        -- rewrite nth_firstn. apply Nat.ltb_lt in Hr'. rewrite Hr'.
           rewrite nth_skipn.
           destruct (Nat.eqb_spec n 1) as [->|_]; [|reflexivity].
           now replace i with 0 by lia.
        -- rewrite length_firstn, length_skipn. nia.
      * intros l Hl. apply in_map_iff in Hl as (c & <- & Hc').
        apply tile_length; [exact Hst|].
        now apply chunks_In_length with (k := n) (d := d).
      * now rewrite length_map, chunks_length.
      * exact Hr.
    + destruct Hmn as [-> | ->]; [congruence|]. cbn [Nat.eqb].
      rewrite (nth_concat_uniform (len := size_of t)).
      * rewrite (nth_indep _ _ (tile s t d)) by now rewrite repeat_length.
        rewrite nth_repeat. rewrite IH; [reflexivity|exact Hst|lia|exact Hrest].
      * intros l Hl. apply In_repeat_eq in Hl as ->.
        apply tile_length; [exact Hst|lia].
      * now rewrite repeat_length.
      * exact Hr.
Qed.

End BroadcastLemmas.

Section BroadcastReading.
Context {E : Type} {SR : Scalar E}.
Implicit Types (a : ndarray E) (s t idx : list nat) (d xs ys : list E).

Lemma bshape_length s1 : forall s2 t,
  bshape s1 s2 = Some t -> length s1 = length t /\ length s2 = length t.
Proof.
  induction s1 as [|m s1 IH]; intros [|n s2] t H; cbn in H; try discriminate.
  - injection H as <-. now split.
  - destruct (bdim m n); [|discriminate].
    destruct (bshape s1 s2) as [t'|] eqn:Et; [|discriminate].
    injection H as <-. destruct (IH _ _ Et). cbn. split; congruence.
Qed.

Lemma pad_length n s : length (pad n s) = Nat.max n (length s).
Proof.
  unfold pad. rewrite length_app, repeat_length. lia.
Qed.

Lemma size_of_pad n s : size_of (pad n s) = size_of s.
Proof.
  unfold pad. induction (n - length s) as [|k IH]; cbn [repeat app];
    [reflexivity|].
  rewrite size_of_cons, IH. lia.
Qed.

(** Leading axes of length 1 added by padding do not move an entry. *)
Lemma ravel_pin_ones k s : forall idx,
  ravel (repeat 1 k ++ s) (pin (repeat 1 k ++ s) idx)
  = ravel s (pin s (skipn k idx)).
Proof.
  induction k as [|k IH]; intros idx; [reflexivity|].
  destruct idx as [|i idx]; cbn [repeat app pin ravel skipn].
  - destruct s; reflexivity.
  - cbn [Nat.eqb]. rewrite IH. reflexivity.
Qed.

Lemma bdim_stretch_both m n k :
  bdim m n = Some k -> (m = k \/ m = 1) /\ (n = k \/ n = 1).
Proof.
  unfold bdim.
  destruct (Nat.eqb_spec m n) as [->|Hne]; [intros [= ->]; now split; left|].
  destruct (Nat.eqb_spec m 1) as [->|_]; [intros [= ->]; split; [now right|now left]|].
  destruct (Nat.eqb_spec n 1) as [->|_]; [|discriminate].
  intros [= ->]. split; [now left|now right].
Qed.

Lemma bshape_stretches_both s1 : forall s2 t,
  bshape s1 s2 = Some t -> stretches s1 t /\ stretches s2 t.
Proof.
  unfold stretches.
  induction s1 as [|m s1 IH]; intros [|n s2] t H; cbn in H; try discriminate.
  - injection H as <-. split; constructor.
  - destruct (bdim m n) as [k|] eqn:Ek; [|discriminate].
    destruct (bshape s1 s2) as [t'|] eqn:Et; [|discriminate].
    injection H as <-.
    destruct (bdim_stretch_both _ _ Ek) as [Hm Hn].
    destruct (IH _ _ Et) as [H1 H2].
    split; constructor; assumption.
Qed.

(** Both operands of a product stretch, once padded, to the shape of the
    result. *)
Lemma broadcast_shapes_stretches s1 s2 t :
  broadcast_shapes s1 s2 = Some t ->
  stretches (pad (length t) s1) t /\ stretches (pad (length t) s2) t.
Proof.
  unfold broadcast_shapes. intros H.
  destruct (bshape_length _ _ H) as [H1 _].
  rewrite pad_length in H1.
  assert (Hn : Nat.max (length s1) (length s2) = length t) by lia.
  rewrite Hn in H. now apply bshape_stretches_both.
Qed.


(** Reading [np.broadcast_to(a, t)] at [idx] is reading [a] at the
    broadcast position. *)
Lemma stretched_nth a t idx :
  stretches (pad (length t) (shape a)) t -> wf a -> in_range t idx ->
  nth (ravel t idx) (broadcast_to t a) zero = bitem a idx.
Proof.
  intros Hst Hw Hi. unfold broadcast_to, bitem, item.
  rewrite tile_nth; [|exact Hst| |exact Hi].
  - unfold pad. rewrite ravel_pin_ones.
    unfold in_range in Hi. apply Forall2_length in Hi. now rewrite Hi.
  - now rewrite size_of_pad.
Qed.

Lemma stretched_length a t :
  stretches (pad (length t) (shape a)) t -> wf a ->
  length (broadcast_to t a) = size_of t.
Proof.
  intros Hst Hw. unfold broadcast_to.
  apply tile_length; [exact Hst|]. now rewrite size_of_pad.
Qed.



Lemma zip_with_length (g : E -> E -> E) xs : forall ys,
  length (zip_with g xs ys) = Nat.min (length xs) (length ys).
Proof.
  induction xs as [|x xs IH]; intros [|y ys]; cbn; try reflexivity.
  now rewrite IH.
Qed.

Lemma zip_with_nth (g : E -> E -> E) (z : E) xs : forall ys i,
  i < length xs -> i < length ys ->
  nth i (zip_with g xs ys) z = g (nth i xs z) (nth i ys z).
Proof.
  induction xs as [|x xs IH]; intros [|y ys] i Hx Hy; cbn in *; try lia.
  destruct i as [|i]; [reflexivity|]. apply IH; lia.
Qed.

(** Every entry of a product is the product of the entries of the two
    operands at the broadcast positions. *)
Lemma multiply_item a b r idx :
  multiply a b = Ok r -> wf a -> wf b -> in_range (shape r) idx ->
  item r idx = mul (bitem a idx) (bitem b idx).
Proof.
  unfold multiply.
  destruct (broadcast_shapes (shape a) (shape b)) as [t|] eqn:Hb; [|discriminate].
  intros [= <-] Ha Hwb Hi. cbn [shape] in Hi. unfold item. cbn [shape data].
  destruct (broadcast_shapes_stretches _ _ Hb) as [H1 H2].
  pose proof (ravel_lt Hi) as Hlt.
  rewrite zip_with_nth.
  - now rewrite !stretched_nth.
  - now rewrite stretched_length.
  - now rewrite stretched_length.
Qed.

Lemma multiply_wf a b r :
  multiply a b = Ok r -> wf a -> wf b -> wf r.
Proof.
  unfold multiply.
  destruct (broadcast_shapes (shape a) (shape b)) as [t|] eqn:Hb; [|discriminate].
  intros [= <-] Ha Hwb. unfold wf. cbn [shape data].
  destruct (broadcast_shapes_stretches _ _ Hb) as [H1 H2].
  rewrite zip_with_length, !stretched_length by assumption. lia.
Qed.

End BroadcastReading.

Section SumLemmas.
Context {E : Type} {SR : Scalar E}.
Implicit Types (d blk : list E).

Lemma firstn_skipn_as_map (z : E) m k d :
  m + k <= length d ->
  firstn k (skipn m d) = map (fun q => nth (m + q) d z) (seq 0 k).
Proof.
  intros Hlen.
  apply nth_ext with (d := z) (d' := z).
  - rewrite length_firstn, length_skipn, length_map, length_seq. lia.
  - intros n Hn. rewrite length_firstn, length_skipn in Hn.
    rewrite nth_firstn, nth_skipn.
    assert (Hk : n < k) by lia. apply Nat.ltb_lt in Hk as Hk'. rewrite Hk'.
    rewrite (nth_indep (map (fun q => nth (m + q) d z) (seq 0 k)) z
               (nth (m + 0) d z))
      by (rewrite length_map, length_seq; lia).
    rewrite (map_nth (fun q => nth (m + q) d z)), seq_nth by lia.
    reflexivity.
Qed.

Lemma chunks_as_map sz k d :
  chunks sz k d = map (fun e => firstn sz (skipn (e * sz) d)) (seq 0 k).
Proof.
  apply nth_ext with (d := []) (d' := []).
  - now rewrite chunks_length, length_map, length_seq.
  - intros n Hn. rewrite chunks_length in Hn. rewrite chunks_nth by exact Hn.
    rewrite (nth_indep _ [] (firstn sz (skipn (0 * sz) d)))
      by (rewrite length_map, length_seq; lia).
    rewrite (map_nth (fun e => firstn sz (skipn (e * sz) d))), seq_nth by lia.
    reflexivity.
Qed.


End SumLemmas.

(* ================================================================== *)
(** * Properties of [DiscreteField] *)

Section DiscreteFieldProperties.
Context {E : Type} {SR : Scalar E}.
Implicit Types d a b : DiscreteField E.

(** C3: [f] is the value component, [ddf] the ggrad component, and [df]
    the first present component among grad, div, curl (in that order),
    absent when all three are absent. *)
Theorem accessors_spec d :
  f d = value d /\
  ddf d = ggrad d /\
  df d = first_present [grad d; div d; curl d] /\
  (forall g, grad d = Some g -> df d = Some g) /\
  (forall x, grad d = None -> div d = Some x -> df d = Some x) /\
  (forall c, grad d = None -> div d = None -> curl d = Some c -> df d = Some c) /\
  (grad d = None -> div d = None -> curl d = None -> df d = None).
Proof.
  unfold f, ddf, df; cbn [first_present].
  split; [reflexivity|]. split; [reflexivity|].
  split; [destruct (grad d), (div d), (curl d); reflexivity|].
  split; [intros g Hg; now rewrite Hg|].
  split; [intros x Hg Hd; now rewrite Hg, Hd|].
  split; [intros c Hg Hd Hc; now rewrite Hg, Hd, Hc|].
  intros Hg Hd Hc; now rewrite Hg, Hd, Hc.
Qed.

Lemma zeroed_slot_zero_or_none (o : option (ndarray E)) :
  zeroed_slot o (zero_or_none o).
Proof.
  destruct o as [x|]; cbn; [|exact I].
  repeat split.
  - unfold wf; cbn. apply repeat_length.
  - apply Forall_forall. intros v Hv. now apply repeat_spec in Hv.
Qed.

(** C5: [zeros_like] returns a field in which every present component is
    replaced by a zero array of the same shape and every absent component
    stays absent; on a field with only value and grad present, value and
    grad are zeroed and div, curl, ggrad are still absent. *)
Theorem zeros_like_spec d :
  exists z,
    discrete_field.zeros_like d = Ok z /\
    zeroed_slot (value d) (value z) /\
    zeroed_slot (grad d) (grad z) /\
    zeroed_slot (div d) (div z) /\
    zeroed_slot (curl d) (curl z) /\
    zeroed_slot (ggrad d) (ggrad z) /\
    (forall v g,
        d = mk_DiscreteField (Some v) (Some g) None None None ->
        z = mk_DiscreteField (Some (numpy.zeros_like v))
              (Some (numpy.zeros_like g)) None None None).
Proof.
  eexists. split; [reflexivity|]. cbn.
  repeat split; try apply zeroed_slot_zero_or_none.
  intros v g ->. reflexivity.
Qed.

(** C9: a field whose value component is absent cannot be split, whatever
    its other components: the split count is asked of the value. *)
Theorem split_requires_value d :
  value d = None -> _split d = Raise AttributeError.
Proof.
  intros Hv. unfold _split, f. now rewrite Hv.
Qed.

End DiscreteFieldProperties.

Lemma split_requires_value_witness :
  _split (mk_DiscreteField None (Some grid23) None None (Some grid23'))
  = Raise AttributeError.
Proof.
  apply split_requires_value. reflexivity.
Defined.

(* ================================================================== *)
(** * Products of fields *)

Section ProductProperties.
Context {E : Type} {SR : Scalar E}.
Implicit Types (d a b : DiscreteField E) (c : ndarray E).

Lemma mul_field_values a b va vb :
  value a = Some va -> value b = Some vb ->
  __mul__ a (PyField b) = rmap PyArray (multiply va vb).
Proof.
  intros Ha Hb. unfold __mul__, f. now rewrite Ha, Hb.
Qed.

Lemma mul_field_array a va c :
  value a = Some va ->
  __mul__ a (PyArray c) = rmap PyArray (multiply va c).
Proof.
  intros Ha. unfold __mul__, f. now rewrite Ha.
Qed.

Lemma mul_field_scalar a va (x : E) :
  value a = Some va ->
  __mul__ a (PyScalar x) = rmap PyArray (multiply va (scalar x)).
Proof.
  intros Ha. unfold __mul__, f. now rewrite Ha.
Qed.

(** Entry by entry: a product that returns is a bare array, and each of
    its entries is the product of the operands' entries at the broadcast
    positions. *)
Lemma product_entries (va vb : ndarray E) (r : pyobj E) :
  rmap PyArray (multiply va vb) = Ok r ->
  exists p,
    r = PyArray p /\
    (wf va -> wf vb -> forall idx,
        in_range (shape p) idx ->
        item p idx = mul (bitem va idx) (bitem vb idx)).
Proof.
  destruct (multiply va vb) as [p|e] eqn:Hm; cbn; [|discriminate].
  intros [= <-]. exists p. split; [reflexivity|].
  intros Ha Hb idx Hi. now apply multiply_item.
Qed.

(** C4 (as amended): the product [a * b] of two fields with present
    values is the product of their value arrays and of nothing else: it
    is unchanged when the derivative components of either operand are
    replaced, it is a bare array of values (not a field: it has no
    derivative slot), and it is taken entry by entry; the product [a * c]
    with an array multiplies the value of [a] by [c], entry by entry. *)
Theorem mul_uses_values_only a b va vb :
  value a = Some va -> value b = Some vb ->
  py_mul (PyField a) (PyField b) = __mul__ a (PyField b) /\
  __mul__ a (PyField b) = rmap PyArray (multiply va vb) /\
  (forall a' b',
      value a' = value a -> value b' = value b ->
      __mul__ a' (PyField b') = __mul__ a (PyField b)) /\
  (forall r,
      __mul__ a (PyField b) = Ok r ->
      exists p,
        r = PyArray p /\
        (wf va -> wf vb -> forall idx,
            in_range (shape p) idx ->
            item p idx = mul (bitem va idx) (bitem vb idx))) /\
  (shape va = shape vb -> wf va -> wf vb ->
   __mul__ a (PyField b)
   = Ok (PyArray (mk_ndarray (shape va) (zip_with mul (data va) (data vb))))) /\
  (forall c,
      py_mul (PyField a) (PyArray c) = __mul__ a (PyArray c) /\
      __mul__ a (PyArray c) = rmap PyArray (multiply va c)) /\
  (forall c r,
      __mul__ a (PyArray c) = Ok r ->
      exists p,
        r = PyArray p /\
        (wf va -> wf c -> forall idx,
            in_range (shape p) idx ->
            item p idx = mul (bitem va idx) (bitem c idx))) /\
  (forall c,
      shape va = shape c -> wf va -> wf c ->
      __mul__ a (PyArray c)
      = Ok (PyArray (mk_ndarray (shape va) (zip_with mul (data va) (data c))))).
Proof.
  intros Ha Hb.
  split; [reflexivity|].
  split; [now apply mul_field_values|].
  split.
  { intros a' b' Ha' Hb'.
    rewrite (mul_field_values a b Ha Hb).
    apply mul_field_values; congruence. }
  split.
  { intros r. rewrite (mul_field_values a b Ha Hb). apply product_entries. }
  split.
  { intros Hs Hwa Hwb.
    rewrite (mul_field_values a b Ha Hb).
    now rewrite multiply_same_shape. }
  split.
  { intros c. split; [reflexivity|]. now apply mul_field_array. }
  split.
  { intros c r. rewrite (mul_field_array a c Ha). apply product_entries. }
  intros c Hs Hwa Hwc.
  rewrite (mul_field_array a c Ha).
  now rewrite multiply_same_shape.
Qed.

Section Commutative.
Hypothesis mul_comm : forall x y : E, mul x y = mul y x.

(** C10: for a field [d] with a present value and a raw number or array
    on the other side, [c * d] and [d * c] are the same, namely the
    product of the value of [d] with [c], entry by entry; [__rmul__] is
    [__mul__]. *)
Theorem mul_raw_commutes d v :
  value d = Some v ->
  (forall o, __rmul__ d o = __mul__ d o) /\
  (forall x : E,
      py_mul (PyScalar x) (PyField d) = py_mul (PyField d) (PyScalar x) /\
      py_mul (PyField d) (PyScalar x) = rmap PyArray (multiply v (scalar x))) /\
  (forall c,
      py_mul (PyArray c) (PyField d) = py_mul (PyField d) (PyArray c) /\
      py_mul (PyField d) (PyArray c) = rmap PyArray (multiply v c)) /\
  (forall x : E,
      wf v ->
      py_mul (PyScalar x) (PyField d)
      = Ok (PyArray (mk_ndarray (shape v) (map (fun e => mul e x) (data v))))) /\
  (forall c r,
      py_mul (PyArray c) (PyField d) = Ok r ->
      exists p,
        r = PyArray p /\
        (wf v -> wf c -> forall idx,
            in_range (shape p) idx ->
            item p idx = mul (bitem v idx) (bitem c idx))) /\
  (forall c,
      shape v = shape c -> wf v -> wf c ->
      py_mul (PyArray c) (PyField d)
      = Ok (PyArray (mk_ndarray (shape v) (zip_with mul (data v) (data c))))).
Proof.
  intros Hv.
  assert (Harr : forall c,
             py_mul (PyArray c) (PyField d) = rmap PyArray (multiply v c)).
  { intros c. unfold py_mul, __array__, f. rewrite Hv. cbn [of_option raw_mul].
    now rewrite (multiply_comm mul_comm c v). }
  split; [reflexivity|].
  split.
  { intros x. split; [reflexivity|].
    cbn [py_mul]. now apply mul_field_scalar. }
  split.
  { intros c. split.
    - rewrite Harr. cbn [py_mul]. symmetry. now apply mul_field_array.
    - cbn [py_mul]. now apply mul_field_array. }
  split.
  { intros x Hw. cbn [py_mul]. unfold __rmul__.
    rewrite (mul_field_scalar d x Hv). now rewrite multiply_scalar_r. }
  split.
  { intros c r. rewrite Harr. apply product_entries. }
  intros c Hs Hwv Hwc. rewrite Harr. now rewrite multiply_same_shape.
Qed.

End Commutative.
End ProductProperties.

Lemma mul_uses_values_only_witness :
  __mul__ field_a (PyField field_b)
  = Ok (PyArray (mk_ndarray [2; 3] [10; 40; 90; 160; 250; 360]%Z)).
Proof.
  exact (proj1 (proj2 (mul_uses_values_only field_a field_b eq_refl eq_refl))).
Defined.

(** C4 (as stated) fails in its result: the product of two fields is
    not a field, value-only or otherwise, but the bare array of the
    products of the values. *)
Lemma mul_uses_values_only_fails :
  py_mul (PyField field_a) (PyField field_b)
  = Ok (PyArray (mk_ndarray [2; 3] [10; 40; 90; 160; 250; 360]%Z)) /\
  ~ (exists d, py_mul (PyField field_a) (PyField field_b) = Ok (PyField d)).
Proof.
  split; [reflexivity|].
  intros (d & Hd). vm_compute in Hd. discriminate Hd.
Qed.

Lemma mul_raw_commutes_witness :
  py_mul (PyScalar 3%Z) (PyField field_a) = py_mul (PyField field_a) (PyScalar 3%Z) /\
  py_mul (PyArray row3) (PyField field_a) = py_mul (PyField field_a) (PyArray row3).
Proof.
  pose proof (mul_raw_commutes Z.mul_comm field_a eq_refl) as H.
  split.
  - exact (proj1 (proj1 (proj2 H) 3%Z)).
  - exact (proj1 (proj1 (proj2 (proj2 H)) row3)).
Defined.

(* ================================================================== *)
(** * Splitting a field along its leading axis *)

Section SplitInPlace.
Context {E : Type} {SR : Scalar E}.
Implicit Types (d : DiscreteField E) (a x : ndarray E).

Lemma slice_of_slot_present d n i a :
  common_leading d n -> In (Some a) (fields d) ->
  slice_of_slot i (Some a) (Some (slice i a)).
Proof.
  intros Hn Ha. cbn. apply slice_is_slice with (n := n). now apply Hn.
Qed.

(** C6 (as amended): for a field whose value component is present, whose
    present components all have leading-axis length [n], and in which no
    absent slot precedes a present one, [_split] returns [n] fields; the
    [i]-th holds block [i] of every present component in that component's
    own slot, and absent components stay absent. *)
Theorem split_in_place d n :
  value d <> None ->
  packed (fields d) = true ->
  common_leading d n ->
  splits_in_place d n.
Proof.
  intros Hv Hp Hn.
  destruct (value d) as [v|] eqn:Ev; [clear Hv|now contradiction Hv].
  exists (map (split_at d) (seq 0 n)).
  split; [now apply split_general with (v := v)|].
  split; [now rewrite length_map, length_seq|].
  intros i r Hr.
  rewrite nth_error_map, nth_error_seq in Hr.
  destruct (i <? n); [|discriminate]. cbn in Hr. injection Hr as <-.
  pose proof (fun a => @slice_of_slot_present d n i a Hn) as Hs.
  destruct d as [dv dg dd dc dgg]. cbn [value] in Ev. subst dv.
  cbn [fields value grad div curl ggrad] in *.
  destruct dg as [g|], dd as [dd|], dc as [c|], dgg as [gg|];
    cbn in Hp; try discriminate Hp;
    cbn [split_at fields present flat_map app map nth value grad div curl ggrad];
    repeat match goal with
           | |- _ /\ _ => split
           | |- slice_of_slot _ None None => exact I
           | |- slice_of_slot _ (Some _) (Some _) => apply Hs; cbn; tauto
           end.
Qed.

End SplitInPlace.

Lemma common_leading_packed_field : common_leading packed_field 2.
Proof.
  intros a Ha. cbn in Ha.
  repeat (destruct Ha as [Ha|Ha]; [inversion Ha; reflexivity|]); try discriminate.
  contradiction.
Qed.

Lemma split_in_place_witness : splits_in_place packed_field 2.
Proof.
  apply split_in_place.
  - discriminate.
  - reflexivity.
  - exact common_leading_packed_field.
Defined.

Lemma common_leading_no_value_field : common_leading no_value_field 2.
Proof.
  intros a Ha. cbn in Ha.
  repeat (destruct Ha as [Ha|Ha]; [inversion Ha; reflexivity|]); try discriminate.
  contradiction.
Qed.

Lemma common_leading_gap_field : common_leading gap_field 2.
Proof.
  intros a Ha. cbn in Ha.
  repeat (destruct Ha as [Ha|Ha]; [inversion Ha; reflexivity|]); try discriminate.
  contradiction.
Qed.

(** C6 (as stated) fails twice.  A field with no value but a grad of
    leading length 2 is not split at all; and a field with value and div
    but no grad is split into fields whose grad slot is filled (with the
    div blocks) and whose div slot is empty. *)
Lemma split_in_place_fails :
  (common_leading no_value_field 2 /\ ~ splits_in_place no_value_field 2) /\
  (common_leading gap_field 2 /\ ~ splits_in_place gap_field 2).
Proof.
  split; split.
  - exact common_leading_no_value_field.
  - intros (l & Hl & _). discriminate Hl.
  - exact common_leading_gap_field.
  - intros (l & Hl & _ & Hslots).
    cbn in Hl. injection Hl as <-.
    destruct (Hslots 0 _ eq_refl) as (_ & Hgrad & _).
    exact Hgrad.
Qed.

(** What [_split] does on every field it accepts: the blocks of the
    present components are packed, in order, into the leading slots. *)
Theorem split_packs_present {E} {SR : Scalar E} (d : DiscreteField E) v n :
  value d = Some v -> common_leading d n ->
  _split d = Ok (map (split_at d) (seq 0 n)).
Proof.
  intros Hv Hn. now apply split_general with (v := v).
Qed.

Lemma split_packs_present_witness :
  _split gap_field
  = Ok [mk_DiscreteField (Some (mk_ndarray [3] [1; 2; 3]%Z))
          (Some (mk_ndarray [3] [10; 20; 30]%Z)) None None None;
        mk_DiscreteField (Some (mk_ndarray [3] [4; 5; 6]%Z))
          (Some (mk_ndarray [3] [40; 50; 60]%Z)) None None None].
Proof.
  exact (@split_packs_present Z Z_Scalar gap_field grid23 2 eq_refl
           common_leading_gap_field).
Defined.

(* ================================================================== *)
(** * Properties of [Functional.assemble] *)

Section FunctionalProperties.
Context {E : Type} {SR : Scalar E}.
Variables World GlobalBasis FormParameters W : Type.
Variable dx : GlobalBasis -> ndarray E.
Variable parameters :
  Functional E World FormParameters -> W -> GlobalBasis -> M World FormParameters.

Implicit Types (F : Functional E World FormParameters) (s : World).

(** C1: with a second basis the call fails at once, on the assertion,
    before [parameters] or the kernel is run (the world is left as it
    was); a call that returns had no second basis; and without one the
    basis handed to [parameters] and whose [dx] is integrated against is
    [ubasis]. *)
Theorem assemble_vbasis_precondition F (ubasis : GlobalBasis) (w : W)
    (nthreads : option Z) s :
  (forall vbasis,
      assemble dx parameters F ubasis (Some vbasis) w nthreads s
      = (s, Raise AssertionError)) /\
  (forall vbasis s' r,
      assemble dx parameters F ubasis vbasis w nthreads s = (s', Ok r) ->
      vbasis = None) /\
  assemble dx parameters F ubasis None w nthreads
  = bind (parameters F w ubasis) (fun p => kernel F p (dx ubasis)).
Proof.
  split; [|split].
  - intros vbasis. reflexivity.
  - intros [vb|] s' r H; [|reflexivity].
    cbn in H. discriminate H.
  - reflexivity.
Qed.

(** C7: two calls that differ only in [nthreads] are the same computation:
    from the same world they return the same result and leave the same
    world. *)
Theorem assemble_nthreads_invariant F (ubasis : GlobalBasis)
    (vbasis : option GlobalBasis) (w : W) (n1 n2 : option Z) :
  assemble dx parameters F ubasis vbasis w n1
  = assemble dx parameters F ubasis vbasis w n2.
Proof.
  unfold assemble. destruct vbasis as [vb|]; reflexivity.
Qed.

End FunctionalProperties.

(** With a second basis nothing is called: the log stays empty. *)
Example assemble_second_basis_calls_nothing :
  assemble (fun b : ndarray Z => b) logging_parameters row_kernel grid23
    (Some grid23) tt (Some 1%Z) []
  = ([], Raise AssertionError).
Proof. reflexivity. Qed.

(* ================================================================== *)
(** * The functional as a sum over quadrature points *)

Section FunctionalSum.
Context {E : Type} {SR : Scalar E}.
Variables World GlobalBasis FormParameters W : Type.
Variable dx : GlobalBasis -> ndarray E.
Variable parameters :
  Functional E World FormParameters -> W -> GlobalBasis -> M World FormParameters.

Implicit Types (F : Functional E World FormParameters) (s : World).




End FunctionalSum.



(* ================================================================== *)
(** * The insulated wire *)

(** The example is run with radii 2 and 3, conductivities 101 and 11,
    generation 5 and convection coefficient 7, and the value it prints as
    exact is, over the reals, the closed form at these parameters. *)
Theorem insulated_exact_closed_form :
  insulated.radii = [2; 3]%R /\
  insulated.thermal_conductivity = [101; 11]%R /\
  insulated.joule_heating = 5%R /\
  insulated.heat_transfer_coefficient = 7%R /\
  insulated.exact = closed_form 5 2 3 101 11 7.
Proof.
  repeat split.
  unfold insulated.exact, closed_form, insulated.radii,
    insulated.thermal_conductivity, insulated.joule_heating,
    insulated.heat_transfer_coefficient.
  cbn [nth]. field.
Qed.

(* ================================================================== *)
(** * When [_split] returns, and what its pieces show *)

Section SplitOutcome.
Context {E : Type} {SR : Scalar E}.
Implicit Types (d : DiscreteField E) (a x : ndarray E).

Lemma mapM_settles {A B} (g : A -> result B) (e : exn) (xs : list A) :
  (forall u, In u xs -> (exists b, g u = Ok b) \/ g u = Raise e) ->
  (exists l, mapM g xs = Ok l /\ length l = length xs) \/ mapM g xs = Raise e.
Proof.
  induction xs as [|u xs IH]; intros H; cbn.
  - left. now exists [].
  - destruct (H u (or_introl eq_refl)) as [[b Hb]|Hb]; rewrite Hb; cbn;
      [|now right].
    destruct IH as [(l & Hl & Hlen)|Hl];
      [intros v Hv; apply H; now right| |]; rewrite Hl; cbn.
    + left. exists (b :: l). split; [reflexivity|]. cbn. now rewrite Hlen.
    + now right.
Qed.

Lemma mapM_raise {A B} (g : A -> result B) (e : exn) (xs : list A) :
  (forall u, In u xs -> (exists b, g u = Ok b) \/ g u = Raise e) ->
  (exists u, In u xs /\ g u = Raise e) ->
  mapM g xs = Raise e.
Proof.
  induction xs as [|u xs IH]; intros H (w & Hw & Hgw); [contradiction|].
  cbn. destruct (H u (or_introl eq_refl)) as [[b Hb]|Hb]; rewrite Hb; cbn;
    [|reflexivity].
  rewrite IH; [reflexivity|intros v Hv; apply H; now right|].
  destruct Hw as [->|Hw]; [congruence|]. now exists w.
Qed.

Lemma getitem_settles a i :
  (exists b, getitem a i = Ok b) \/ getitem a i = Raise IndexError.
Proof.
  unfold getitem. destruct (shape a) as [|m s]; [now right|].
  destruct (i <? m); [left; eauto|now right].
Qed.

Lemma getitem_covers a n i :
  covers n a = true -> i < n -> getitem a i = Ok (slice i a).
Proof.
  unfold covers. intros Hc Hi.
  destruct (shape a) as [|m s] eqn:Hs; [discriminate|].
  apply Nat.leb_le in Hc.
  apply getitem_slice with (n := m); [now rewrite Hs|lia].
Qed.

Lemma getitem_uncovered a n :
  0 < n -> covers n a = false -> getitem a (n - 1) = Raise IndexError.
Proof.
  unfold covers, getitem. intros Hn Hc.
  destruct (shape a) as [|m s]; [reflexivity|].
  apply Nat.leb_gt in Hc.
  destruct (Nat.ltb_spec (n - 1) m); [lia|reflexivity].
Qed.

Lemma forallb_false_In {A} (p : A -> bool) (l : list A) :
  forallb p l = false -> exists u, In u l /\ p u = false.
Proof.
  induction l as [|u l IH]; cbn; [discriminate|].
  destruct (p u) eqn:Hu; cbn.
  - intros H. destruct (IH H) as (w & Hw & Hpw). exists w. split; [now right|assumption].
  - intros _. exists u. split; [now left|assumption].
Qed.

(** One piece of the comprehension: it is built, or an index is out of
    range. *)
Lemma split_body_settles d i :
  (exists r,
      (comps <- mapM (fun c => getitem c i) (present (fields d)) ;;
       new (map Some comps)) = Ok r)
  \/ (comps <- mapM (fun c => getitem c i) (present (fields d)) ;;
      new (map Some comps)) = Raise IndexError.
Proof.
  destruct (@mapM_settles _ _ (fun c => getitem c i) IndexError
              (present (fields d)))
    as [(l & Hl & Hlen)|Hl]; [intros u _; apply getitem_settles| |];
    rewrite Hl; cbn [rbind]; [|now right].
  left. unfold new. rewrite length_map, Hlen.
  pose proof (present_length (fields d)) as Hp. cbn [fields length] in Hp.
  destruct (Nat.leb_spec (length (present (fields d))) 5); [eauto|lia].
Qed.

(** The whole of [_split] on a field with a value. *)
Lemma split_settles d v :
  value d = Some v ->
  _split d
  = match shape v with
    | [] => Raise IndexError
    | n :: _ =>
        if fits d n then Ok (map (split_at d) (seq 0 n)) else Raise IndexError
    end.
Proof.
  intros Hv. unfold _split, f, shape0. rewrite Hv.
  destruct (shape v) as [|n rest]; [reflexivity|]. cbn [rbind].
  unfold fits. destruct (Nat.eqb_spec n 0) as [->|Hn0]; [reflexivity|].
  cbn [orb].
  destruct (forallb (covers n) (present (fields d))) eqn:Hfit.
  - apply mapM_ok. intros i Hi. apply in_seq in Hi.
    rewrite (mapM_ok (fun c => getitem c i) (slice i)).
    + cbn [rbind]. unfold new, split_at. rewrite !length_map.
      pose proof (present_length (fields d)) as Hp. cbn [fields length] in Hp.
      destruct (Nat.leb_spec (length (present (fields d))) 5); [reflexivity|lia].
    + intros c Hc. apply getitem_covers with (n := n); [|lia].
      rewrite forallb_forall in Hfit. now apply Hfit.
  - apply mapM_raise.
    + intros i _. apply split_body_settles.
    + exists (n - 1). split; [apply in_seq; lia|].
      apply forallb_false_In in Hfit as (a & Ha & Hca).
      rewrite (@mapM_raise _ _ (fun c => getitem c (n - 1)) IndexError
                 (present (fields d))); [reflexivity| |].
      * intros u _. apply getitem_settles.
      * exists a. split; [exact Ha|]. apply getitem_uncovered; [lia|exact Hca].
Qed.

Lemma split_returns_inv d l :
  _split d = Ok l ->
  exists v n rest,
    value d = Some v /\ shape v = n :: rest /\ fits d n = true /\
    l = map (split_at d) (seq 0 n).
Proof.
  intros H. destruct (value d) as [v|] eqn:Hv.
  - rewrite (split_settles d Hv) in H.
    destruct (shape v) as [|n rest] eqn:Hs; [discriminate|].
    destruct (fits d n) eqn:Hf; [|discriminate].
    injection H as <-. now exists v, n, rest.
  - unfold _split, f in H. rewrite Hv in H. discriminate.
Qed.

End SplitOutcome.

Section SplitAccessors.
Context {E : Type} {SR : Scalar E}.
Implicit Types (d : DiscreteField E) (a x : ndarray E).

Lemma covered_slice_slot n i a :
  covers n a = true -> slice_of_slot i (Some a) (Some (slice i a)).
Proof.
  unfold covers. intros Hc. cbn.
  destruct (shape a) as [|m s] eqn:Hs; [discriminate|].
  apply slice_is_slice with (n := m). now rewrite Hs.
Qed.

(** [_split] settled on every field: without a value it raises
    [AttributeError]; with a 0-dimensional value, or with a present
    component whose leading axis is shorter than the value's, it raises
    [IndexError]; otherwise it returns as many pieces as the value's
    leading axis is long ([fits] requires nothing of the other components
    when that length is 0, and ignores their blocks beyond it). *)
Theorem split_outcome d :
  match value d with
  | None => _split d = Raise AttributeError
  | Some v =>
      match shape v with
      | [] => _split d = Raise IndexError
      | n :: _ =>
          if fits d n
          then exists l,
                 _split d = Ok l /\ length l = n /\
                 forall i, i < n -> nth_error l i = Some (split_at d i)
          else _split d = Raise IndexError
      end
  end.
Proof.
  destruct (value d) as [v|] eqn:Hv.
  - pose proof (split_settles d Hv) as H.
    destruct (shape v) as [|n rest]; [exact H|].
    destruct (fits d n); [|exact H].
    exists (map (split_at d) (seq 0 n)).
    split; [exact H|]. split; [now rewrite length_map, length_seq|].
    intros i Hi. rewrite nth_error_map, nth_error_seq.
    apply Nat.ltb_lt in Hi. now rewrite Hi.
  - unfold _split, f. now rewrite Hv.
Qed.

(** Whatever slots the pieces of a split use, their accessors agree with
    the field's as far as values and first derivatives go: [f] of piece
    [i] is block [i] of [f], and [df] of piece [i] is block [i] of [df]
    whenever the field has a first derivative.  Second derivatives are
    seen through [ddf] only when grad, div and curl are all present; with
    no first derivative at all, the ggrad blocks appear under [df]. *)
Theorem split_keeps_accessors d l i r :
  _split d = Ok l -> nth_error l i = Some r ->
  slice_of_slot i (f d) (f r) /\
  (df d <> None -> slice_of_slot i (df d) (df r)) /\
  (ggrad d = None -> ddf r = None) /\
  (grad d <> None -> div d <> None -> curl d <> None ->
   slice_of_slot i (ddf d) (ddf r)) /\
  (grad d = None -> div d = None -> curl d = None ->
   slice_of_slot i (ggrad d) (df r) /\ ddf r = None).
Proof.
  intros Hl Hr.
  destruct (split_returns_inv d Hl) as (v & n & rest & Hv & Hs & Hfit & ->).
  rewrite nth_error_map, nth_error_seq in Hr.
  destruct (Nat.ltb_spec i n) as [Hi|]; [|discriminate].
  cbn in Hr. injection Hr as <-.
  unfold fits in Hfit. destruct (Nat.eqb_spec n 0) as [->|_]; [lia|].
  cbn [orb] in Hfit. rewrite forallb_forall in Hfit.
  pose proof (fun a Ha => @covered_slice_slot n i a (Hfit a Ha)) as Hslot.
  clear Hfit Hs Hl.
  destruct d as [dv dg dd dc dgg]. cbn [value] in Hv. subst dv.
  unfold f, df, ddf.
  cbn [fields value grad div curl ggrad] in *.
  destruct dg as [g|], dd as [dd|], dc as [c|], dgg as [gg|];
    cbn [split_at fields present flat_map app map nth value grad div curl ggrad] in *;
    repeat match goal with
           | |- _ /\ _ => split
           | |- _ -> _ => intros ?
           | |- slice_of_slot _ None None => exact I
           | |- slice_of_slot _ (Some _) (Some _) => apply Hslot; cbn; tauto
           | |- None = None => reflexivity
           | H : Some _ = None |- _ => discriminate H
           | H : None <> None |- _ => now contradiction H
           end.
Qed.

End SplitAccessors.

(* ================================================================== *)
(** * How [zeros_like] composes *)

Section ZerosLikeComposition.
Context {E : Type} {SR : Scalar E}.
Implicit Types (d z : DiscreteField E) (a : ndarray E).

Lemma zeros_like_value d :
  discrete_field.zeros_like d
  = Ok (mk_DiscreteField (zero_or_none (value d)) (zero_or_none (grad d))
          (zero_or_none (div d)) (zero_or_none (curl d))
          (zero_or_none (ggrad d))).
Proof. reflexivity. Qed.

Lemma zero_or_none_idem (o : option (ndarray E)) :
  zero_or_none (zero_or_none o) = zero_or_none o.
Proof. destruct o; reflexivity. Qed.

(** Zeroing a zeroed field changes nothing. *)
Theorem zeros_like_idempotent d z :
  discrete_field.zeros_like d = Ok z -> discrete_field.zeros_like z = Ok z.
Proof.
  rewrite zeros_like_value. intros [= <-].
  rewrite zeros_like_value. cbn [value grad div curl ggrad].
  now rewrite !zero_or_none_idem.
Qed.

(** The accessors of a zeroed field are the zeroed accessors of the
    field: in particular [df] still reads the slot it read before. *)
Theorem zeros_like_accessors d :
  exists z,
    discrete_field.zeros_like d = Ok z /\
    zeroed_slot (f d) (f z) /\
    zeroed_slot (df d) (df z) /\
    zeroed_slot (ddf d) (ddf z).
Proof.
  eexists. split; [apply zeros_like_value|].
  unfold f, df, ddf. cbn [value grad div curl ggrad].
  split; [apply zeroed_slot_zero_or_none|].
  split; [|apply zeroed_slot_zero_or_none].
  destruct (grad d) as [g|]; [apply (zeroed_slot_zero_or_none (Some g))|].
  destruct (div d) as [v|]; [apply (zeroed_slot_zero_or_none (Some v))|].
  destruct (curl d) as [c|]; [apply (zeroed_slot_zero_or_none (Some c))|].
  exact I.
Qed.

Lemma firstn_skipn_repeat (x : E) N j k :
  j + k <= N -> firstn k (skipn j (repeat x N)) = repeat x k.
Proof.
  intros H. rewrite (firstn_skipn_as_map x) by (rewrite repeat_length; lia).
  rewrite (map_ext _ (fun _ => x)) by (intros q; apply nth_repeat).
  now rewrite map_const, length_seq.
Qed.

Lemma slice_zeros_like a n i :
  covers n a = true -> i < n ->
  slice i (numpy.zeros_like a) = numpy.zeros_like (slice i a).
Proof.
  unfold covers, slice, numpy.zeros_like. cbn [shape data].
  destruct (shape a) as [|m s]; [discriminate|]. cbn [tl].
  intros Hc Hi. apply Nat.leb_le in Hc. f_equal.
  apply firstn_skipn_repeat. rewrite size_of_cons. nia.
Qed.

Lemma present_zero_or_none (l : list (option (ndarray E))) :
  present (map zero_or_none l) = map numpy.zeros_like (present l).
Proof.
  unfold present. induction l as [|[a|] l IH]; cbn; [reflexivity| |exact IH].
  now rewrite IH.
Qed.

Lemma forallb_covers_zeros_like n (l : list (ndarray E)) :
  forallb (covers n) (map numpy.zeros_like l) = forallb (covers n) l.
Proof.
  induction l as [|a l IH]; cbn; [reflexivity|]. now rewrite IH.
Qed.

Lemma map_some_zeros_like (l : list (ndarray E)) :
  map Some (map numpy.zeros_like l) = map zero_or_none (map Some l).
Proof. now rewrite !map_map. Qed.

(** Splitting and zeroing commute: the pieces of the zeroed field are the
    zeroed pieces of the field. *)
Theorem split_zeros_like d l z :
  _split d = Ok l -> discrete_field.zeros_like d = Ok z ->
  exists l', _split z = Ok l' /\ mapM discrete_field.zeros_like l = Ok l'.
Proof.
  intros Hl Hz.
  destruct (split_returns_inv d Hl) as (v & n & rest & Hv & Hs & Hfit & ->).
  rewrite zeros_like_value in Hz. injection Hz as <-.
  set (z := mk_DiscreteField _ _ _ _ _).
  assert (Hpz : present (fields z) = map numpy.zeros_like (present (fields d)))
    by apply (present_zero_or_none (fields d)).
  assert (Hvz : value z = Some (numpy.zeros_like v)) by (cbn; now rewrite Hv).
  exists (map (split_at z) (seq 0 n)). split.
  - rewrite (split_settles z Hvz). cbn [numpy.zeros_like shape]. rewrite Hs.
    replace (fits z n) with true; [reflexivity|].
    symmetry. unfold fits in *. now rewrite Hpz, forallb_covers_zeros_like.
  - rewrite (mapM_ok discrete_field.zeros_like
               (fun u => mk_DiscreteField (zero_or_none (value u))
                           (zero_or_none (grad u)) (zero_or_none (div u))
                           (zero_or_none (curl u)) (zero_or_none (ggrad u))))
      by (intros u _; apply zeros_like_value).
    f_equal. rewrite map_map. apply map_ext_in.
    intros i Hi. apply in_seq in Hi.
    unfold fits in Hfit. destruct (Nat.eqb_spec n 0) as [->|_]; [lia|].
    cbn [orb] in Hfit. rewrite forallb_forall in Hfit.
    symmetry. unfold split_at. rewrite Hpz. cbn [value grad div curl ggrad].
    rewrite (map_map numpy.zeros_like (slice i)).
    rewrite (map_ext_in (fun a => slice i (numpy.zeros_like a))
               (fun a => numpy.zeros_like (slice i a)))
      by (intros a Ha; apply slice_zeros_like with (n := n);
          [now apply Hfit|lia]).
    rewrite <- (map_map (slice i) numpy.zeros_like).
    rewrite map_some_zeros_like.
    set (args := map Some (map (slice i) (present (fields d)))).
    now rewrite !(map_nth zero_or_none args None).
Qed.

End ZerosLikeComposition.

(* ================================================================== *)
(** * [np.sum(..., axis=1)] and same-rank reads, entry by entry *)

Section SumEntries.
Context {E : Type} {SR : Scalar E}.
Implicit Types (a : ndarray E) (d acc : list E) (rows : list (list E)).

Lemma fold_zip_length len rows : forall acc,
  (forall r, In r rows -> length r = len) -> length acc = len ->
  length (fold_left (zip_with add) rows acc) = len.
Proof.
  induction rows as [|r rows IH]; intros acc Hr Ha; cbn; [exact Ha|].
  apply IH; [intros r' Hr'; apply Hr; now right|].
  rewrite zip_with_length, Ha, Hr by now left. lia.
Qed.

Lemma fold_zip_nth len rows : forall acc j,
  (forall r, In r rows -> length r = len) -> length acc = len -> j < len ->
  nth j (fold_left (zip_with add) rows acc) zero
  = fold_left add (map (fun r => nth j r zero) rows) (nth j acc zero).
Proof.
  induction rows as [|r rows IH]; intros acc j Hr Ha Hj; cbn; [reflexivity|].
  assert (Hlr : length r = len) by (apply Hr; now left).
  rewrite IH; [|intros r' Hr'; apply Hr; now right| |exact Hj].
  - now rewrite zip_with_nth by lia.
  - rewrite zip_with_length. lia.
Qed.

(** With axes behind the second one,
    [np.sum(a, axis=1)[i, ...] = a[i, 0, ...] + a[i, 1, ...] + ...] *)
Lemma sum_axis1_item n0 n1 rest d :
  rest <> [] ->
  length d = n0 * (n1 * size_of rest) ->
  exists out,
    sum_axis1 (mk_ndarray (n0 :: n1 :: rest) d) = Ok out /\
    shape out = n0 :: rest /\
    forall i idx, i < n0 -> in_range rest idx ->
      item out (i :: idx)
      = sum_list (map (fun j => item (mk_ndarray (n0 :: n1 :: rest) d) (i :: j :: idx))
                      (seq 0 n1)).
Proof.
  intros Hne Hd.
  exists (mk_ndarray (n0 :: rest)
            (flat_map
               (fun blk => fold_left (zip_with add)
                             (chunks (size_of rest) n1 blk)
                             (repeat zero (size_of rest)))
               (chunks (n1 * size_of rest) n0 d))).
  split; [destruct rest; [contradiction|reflexivity]|].
  split; [reflexivity|].
  intros i idx Hi Hidx. unfold item. cbn [shape data ravel].
  pose proof (ravel_lt Hidx) as Hr.
  set (inner := size_of rest) in *. rewrite !size_of_cons. fold inner.
  rewrite flat_map_concat_map.
  assert (Hblk : forall blk, In blk (chunks (n1 * inner) n0 d) ->
                 length blk = n1 * inner)
    by (intros blk; now apply chunks_In_length).
  assert (Hrows : forall blk : list E, length blk = n1 * inner ->
                  forall r, In r (chunks inner n1 blk) -> length r = inner)
    by (intros blk Hb r; now apply chunks_In_length).
  rewrite (nth_concat_uniform (len := inner)); [| | |exact Hr].
  - set (G := fun blk => fold_left (zip_with add) (chunks inner n1 blk)
                           (repeat zero inner)).
    rewrite (nth_indep _ [] (G [])) by now rewrite length_map, chunks_length.
    rewrite (map_nth G), chunks_nth by exact Hi. unfold G.
    set (blk := firstn (n1 * inner) (skipn (i * (n1 * inner)) d)).
    assert (Hlb : length blk = n1 * inner)
      by (unfold blk; rewrite length_firstn, length_skipn; nia).
    rewrite (fold_zip_nth (len := inner));
      [|now apply Hrows|apply repeat_length|exact Hr].
    rewrite nth_repeat. unfold sum_list. f_equal.
    rewrite chunks_as_map, map_map. apply map_ext_in.
    intros j Hj. apply in_seq in Hj.
    rewrite nth_firstn. apply Nat.ltb_lt in Hr as Hr'. rewrite Hr'.
    rewrite nth_skipn. unfold blk. rewrite nth_firstn.
    assert (Hlt : j * inner + ravel rest idx < n1 * inner) by nia.
    apply Nat.ltb_lt in Hlt. rewrite Hlt. now rewrite nth_skipn.
  - intros l Hl. apply in_map_iff in Hl as (blk & <- & Hb).
    apply fold_zip_length; [apply Hrows; now apply Hblk|apply repeat_length].
  - now rewrite length_map, chunks_length.
Qed.

(** An operand of the rank of the result, read inside its own shape, is
    read where it is asked. *)
Lemma pin_in_range_id s : forall idx, in_range s idx -> pin s idx = idx.
Proof.
  unfold in_range.
  induction s as [|m s IH]; intros idx H; inversion H; subst; cbn [pin];
    [reflexivity|].
  rewrite IH by assumption.
  destruct (Nat.eqb_spec m 1) as [->|_]; [|reflexivity].
  f_equal. lia.
Qed.

Lemma bitem_suffix a lead idx :
  in_range (shape a) idx -> bitem a (lead ++ idx) = item a idx.
Proof.
  intros H. unfold bitem.
  pose proof (Forall2_length H) as Hlen.
  rewrite length_app, <- Hlen.
  replace (length lead + length idx - length idx) with (length lead) by lia.
  rewrite skipn_app, skipn_all, Nat.sub_diag. cbn [app skipn].
  now rewrite pin_in_range_id.
Qed.

End SumEntries.

(* ================================================================== *)
(** * Every outcome of [Functional.assemble] *)

Section FunctionalOutcome.
Context {E : Type} {SR : Scalar E}.
Variables World GlobalBasis FormParameters W : Type.
Variable dx : GlobalBasis -> ndarray E.
Variable parameters :
  Functional E World FormParameters -> W -> GlobalBasis -> M World FormParameters.

Implicit Types (F : Functional E World FormParameters) (s : World).

Lemma py_mul_integrand (c : pyobj E) (a : ndarray E) :
  py_mul c (PyArray a)
  = match integrand c with
    | Some fw => rmap PyArray (multiply fw a)
    | None => none_times a
    end.
Proof.
  destruct c as [|x|b|d]; cbn [py_mul integrand as_array raw_mul];
    try reflexivity.
  unfold __mul__, f. destruct (value d); reflexivity.
Qed.

(** The kernel, once the wrapped form has returned [c]. *)
Lemma kernel_after_form F (p : FormParameters) (m : ndarray E) s1 s2 c :
  form F p s1 = (s2, Ok c) ->
  kernel F p m s1
  = (s2, match integrand c with
         | Some fw => rbind (multiply fw m) sum_axis1
         | None =>
             if size_of (shape m) =? 0
             then sum_axis1 (mk_ndarray (shape m) [])
             else Raise TypeError
         end).
Proof.
  intros Hf. unfold kernel, bind, lift. rewrite Hf, py_mul_integrand.
  destruct (integrand c) as [fw|].
  - destruct (multiply fw m); reflexivity.
  - unfold none_times. destruct (size_of (shape m) =? 0); reflexivity.
Qed.

Lemma sum_axis1_outcome (a : ndarray E) :
  match shape a with
  | n0 :: _ :: rest => exists out, sum_axis1 a = Ok out /\ shape out = n0 :: rest
  | _ => sum_axis1 a = Raise AxisError
  end.
Proof.
  unfold sum_axis1. destruct (shape a) as [|n0 [|n1 rest]]; try reflexivity.
  destruct rest; eexists; split; reflexivity.
Qed.

(** Every way a call without a second basis can end.  An exception of
    [parameters] or of the kernel ends the call with that exception, in
    the world the raising call left, and nothing more is called.  A kernel
    value that is [None] or a field without value is a [TypeError] as
    soon as [dx] has an entry; against a [dx] without entries the product
    is an empty array of the shape of [dx].  A kernel value whose shape
    does not broadcast against [dx] is a [ValueError].  When the product
    has fewer than two axes the sum is an [AxisError]; otherwise the call
    returns an array that lacks the second axis of the product. *)
Theorem assemble_outcome F (ubasis : GlobalBasis) (w : W)
    (nthreads : option Z) s0 :
  match parameters F w ubasis s0 with
  | (s1, Raise e) =>
      assemble dx parameters F ubasis None w nthreads s0 = (s1, Raise e)
  | (s1, Ok p) =>
      match form F p s1 with
      | (s2, Raise e) =>
          assemble dx parameters F ubasis None w nthreads s0 = (s2, Raise e)
      | (s2, Ok c) =>
          match integrand c with
          | None =>
              if size_of (shape (dx ubasis)) =? 0
              then
                match shape (dx ubasis) with
                | n0 :: _ :: rest =>
                    exists out,
                      assemble dx parameters F ubasis None w nthreads s0
                      = (s2, Ok out) /\ shape out = n0 :: rest
                | _ =>
                    assemble dx parameters F ubasis None w nthreads s0
                    = (s2, Raise AxisError)
                end
              else
                assemble dx parameters F ubasis None w nthreads s0
                = (s2, Raise TypeError)
          | Some fw =>
              match broadcast_shapes (shape fw) (shape (dx ubasis)) with
              | None =>
                  assemble dx parameters F ubasis None w nthreads s0
                  = (s2, Raise ValueError)
              | Some (n0 :: _ :: rest) =>
                  exists out,
                    assemble dx parameters F ubasis None w nthreads s0
                    = (s2, Ok out) /\ shape out = n0 :: rest
              | Some _ =>
                  assemble dx parameters F ubasis None w nthreads s0
                  = (s2, Raise AxisError)
              end
          end
      end
  end.
Proof.
  destruct (parameters F w ubasis s0) as [s1 [p|e]] eqn:Hp;
    [|unfold assemble, bind; now rewrite Hp].
  assert (Ha : assemble dx parameters F ubasis None w nthreads s0
               = kernel F p (dx ubasis) s1)
    by (unfold assemble, bind; now rewrite Hp).
  rewrite Ha. clear Ha.
  destruct (form F p s1) as [s2 [c|e]] eqn:Hf.
  - rewrite kernel_after_form with (s2 := s2) (c := c) by exact Hf.
    destruct (integrand c) as [fw|].
    + unfold multiply.
      destruct (broadcast_shapes (shape fw) (shape (dx ubasis))) as [t|];
        [|reflexivity].
      cbn [rbind].
      match goal with |- context [sum_axis1 ?a] =>
        pose proof (sum_axis1_outcome a) as Hsum end.
      cbn [shape] in Hsum.
      destruct t as [|n0 [|n1 rest]]; try (now rewrite Hsum).
      destruct Hsum as (out & Hout & Hshape). exists out. now rewrite Hout.
    + destruct (size_of (shape (dx ubasis)) =? 0); [|reflexivity].
      pose proof (sum_axis1_outcome (mk_ndarray (shape (dx ubasis)) [])) as Hsum.
      cbn [shape] in Hsum.
      destruct (shape (dx ubasis)) as [|n0 [|n1 rest]]; try (now rewrite Hsum).
      destruct Hsum as (out & Hout & Hshape). exists out. now rewrite Hout.
  - unfold kernel, bind. now rewrite Hf.
Qed.

(** A kernel that returns a field is integrated through the field's
    value: it gives what a kernel returning the value itself gives. *)
Theorem kernel_reads_field_value F F' (p : FormParameters) (m : ndarray E)
    s1 s2 (d : DiscreteField E) :
  form F p s1 = (s2, Ok (PyField d)) ->
  form F' p s1 = (s2, Ok (of_option (value d))) ->
  kernel F p m s1 = kernel F' p m s1.
Proof.
  intros H H'.
  rewrite kernel_after_form with (s2 := s2) (c := PyField d) by exact H.
  rewrite kernel_after_form with (s2 := s2) (c := of_option (value d))
    by exact H'.
  cbn [integrand]. destruct (value d); reflexivity.
Qed.

End FunctionalOutcome.

(* ================================================================== *)
(** * Constant and vector-valued integrands *)

Section FunctionalIntegrands.
Context {E : Type} {SR : Scalar E}.
Variables World GlobalBasis FormParameters W : Type.
Variable dx : GlobalBasis -> ndarray E.
Variable parameters :
  Functional E World FormParameters -> W -> GlobalBasis -> M World FormParameters.

Implicit Types (F : Functional E World FormParameters) (s : World).

Lemma zip_with_repeat_l (g : E -> E -> E) (x : E) (ys : list E) :
  zip_with g (repeat x (length ys)) ys = map (g x) ys.
Proof.
  induction ys as [|y ys IH]; cbn; [reflexivity|]. now rewrite IH.
Qed.


Lemma assemble_after_calls F (ubasis : GlobalBasis) (w : W)
    (nthreads : option Z) s0 s1 s2 (p : FormParameters) (c : pyobj E) fw :
  parameters F w ubasis s0 = (s1, Ok p) ->
  form F p s1 = (s2, Ok c) ->
  integrand c = Some fw ->
  assemble dx parameters F ubasis None w nthreads s0
  = (s2, rbind (multiply fw (dx ubasis)) sum_axis1).
Proof.
  intros Hp Hf Hc. unfold assemble, bind at 1. rewrite Hp.
  rewrite kernel_after_form with (s2 := s2) (c := c) by exact Hf.
  now rewrite Hc.
Qed.


Lemma broadcast_shapes_lead k t : broadcast_shapes (k :: t) t = Some (k :: t).
Proof.
  unfold broadcast_shapes.
  replace (Nat.max (length (k :: t)) (length t)) with (length (k :: t))
    by (cbn [length]; lia).
  rewrite (pad_length_self (k :: t)).
  unfold pad. replace (length (k :: t) - length t) with 1 by (cbn [length]; lia).
  cbn [repeat app bshape]. now rewrite bdim_one_r, bshape_same.
Qed.

(** A kernel value with a leading component axis, of shape (components,
    elements, points), is summed along its second axis too: the result
    has one entry per component and quadrature point, the sum over the
    elements. *)
Theorem assemble_component_axis F (ubasis : GlobalBasis) (w : W)
    (nthreads : option Z) s0 s1 s2 (p : FormParameters) (c : pyobj E)
    (fw : ndarray E) (k nel nqp : nat) :
  parameters F w ubasis s0 = (s1, Ok p) ->
  form F p s1 = (s2, Ok c) ->
  integrand c = Some fw ->
  wf fw -> shape fw = [k; nel; nqp] ->
  wf (dx ubasis) -> shape (dx ubasis) = [nel; nqp] ->
  exists out,
    assemble dx parameters F ubasis None w nthreads s0 = (s2, Ok out) /\
    shape out = [k; nqp] /\
    forall j q, j < k -> q < nqp ->
      item out [j; q]
      = sum_list (map (fun e => mul (item fw [j; e; q]) (item (dx ubasis) [e; q]))
                      (seq 0 nel)).
Proof.
  intros Hp Hf Hc Hwf Hsf Hwd Hsd.
  rewrite assemble_after_calls
    with (s1 := s1) (s2 := s2) (p := p) (c := c) (fw := fw);
    [|exact Hp|exact Hf|exact Hc].
  destruct (multiply fw (dx ubasis)) as [prod|e] eqn:Hm.
  2:{ unfold multiply in Hm. rewrite Hsf, Hsd, broadcast_shapes_lead in Hm.
      discriminate Hm. }
  assert (Hsp : shape prod = [k; nel; nqp]).
  { unfold multiply in Hm. rewrite Hsf, Hsd, broadcast_shapes_lead in Hm.
    now injection Hm as <-. }
  assert (Hwp : wf prod) by now apply multiply_wf with (a := fw) (b := dx ubasis).
  assert (Hitem : forall idx, in_range (shape prod) idx ->
             item prod idx = mul (bitem fw idx) (bitem (dx ubasis) idx))
    by (intros idx; now apply multiply_item).
  destruct prod as [sp dp]. cbn [shape data] in *. subst sp.
  destruct (@sum_axis1_item _ _ k nel [nqp] dp) as (out & Hout & Hshape & Hsum);
    [discriminate|exact Hwp|].
  exists out. cbn [rbind]. rewrite Hout. split; [reflexivity|].
  split; [exact Hshape|].
  intros j q Hj Hq. rewrite Hsum; [|exact Hj|repeat constructor; exact Hq].
  f_equal. apply map_ext_in. intros e He. apply in_seq in He.
  rewrite Hitem by (repeat constructor; lia).
  f_equal.
  - apply (bitem_suffix fw []). rewrite Hsf. repeat constructor; lia.
  - apply (bitem_suffix (dx ubasis) [j]). rewrite Hsd. repeat constructor; lia.
Qed.

End FunctionalIntegrands.

(* ================================================================== *)
(** * The helpers of the insulated-wire example *)

Section Transpose.
Context {E : Type} {SR : Scalar E}.
Implicit Types (a x : ndarray E) (s t idx : list nat).

Lemma unravel_ravel t : forall idx,
  in_range t idx -> unravel t (ravel t idx) = idx.
Proof.
  unfold in_range.
  induction t as [|n t IH]; intros idx H; inversion H as [|i ? idx' ? Hi Hrest];
    subst; cbn [ravel unravel]; [reflexivity|].
  pose proof (ravel_lt Hrest) as Hr.
  rewrite <- (Nat.div_unique (i * size_of t + ravel t idx') (size_of t) i
                (ravel t idx')) by lia.
  rewrite <- (Nat.mod_unique (i * size_of t + ravel t idx') (size_of t) i
                (ravel t idx')) by lia.
  now rewrite IH.
Qed.

(** [a.T[idx] = a[reversed idx]] *)
Lemma transpose_item a idx :
  in_range (rev (shape a)) idx ->
  item (transpose a) idx = item a (rev idx).
Proof.
  intros H. unfold transpose, item at 1. cbn [shape data].
  pose proof (ravel_lt H) as Hr.
  set (F := fun k => item a (rev (unravel (rev (shape a)) k))).
  rewrite (nth_indep _ zero (F 0)) by now rewrite length_map, length_seq.
  rewrite (map_nth F), seq_nth by exact Hr.
  unfold F. cbn [Nat.add]. now rewrite unravel_ravel.
Qed.

Lemma transpose_wf a : wf (transpose a).
Proof.
  unfold wf, transpose. cbn [shape data]. now rewrite length_map, length_seq.
Qed.

(** [np.tile(x, (n, 1))] of a one-dimensional [x]: [n] copies of [x], one
    per row. *)
Lemma tile_rows_vector x m n :
  shape x = [m] -> wf x ->
  np_tile_rows x n = mk_ndarray [n * 1; m] (concat (repeat (data x) n)).
Proof.
  intros Hs Hw. unfold np_tile_rows. rewrite Hs.
  cbn [pad length Nat.sub repeat app firstn nth size_of fold_right chunks flat_map].
  rewrite app_nil_r. do 3 f_equal.
  unfold wf in Hw. rewrite Hs in Hw. cbn in Hw.
  apply firstn_all2. lia.
Qed.

End Transpose.

Section Elemental.
Context {E : Type} {SR : Scalar E}.
Implicit Types (W x : ndarray E).

Lemma elemental_vector W x nqp rest nel :
  shape W = nqp :: rest -> shape x = [nel] -> wf x ->
  exists r,
    insulated.elemental W x = Ok r /\
    shape r = [nel; nqp] /\
    wf r /\
    forall e q, e < nel -> q < nqp -> item r [e; q] = item x [e].
Proof.
  intros HW Hx Hwx.
  unfold insulated.elemental, len. rewrite HW. cbn [rbind].
  eexists. split; [reflexivity|].
  rewrite (tile_rows_vector nqp Hx Hwx).
  split; [cbn [transpose shape rev app]; now rewrite Nat.mul_1_r|].
  split; [apply transpose_wf|].
  intros e q He Hq.
  rewrite transpose_item
    by (cbn [shape rev app]; repeat constructor; lia).
  unfold item. cbn [rev app shape data ravel size_of fold_right].
  unfold wf in Hwx. rewrite Hx in *. cbn in Hwx. cbn [ravel].
  replace (q * (nel * 1) + (e * 1 + 0)) with (q * nel + e) by lia.
  rewrite (nth_concat_uniform (len := nel));
    [|intros l Hl; apply In_repeat_eq in Hl as ->; lia
     |now rewrite repeat_length|exact He].
  rewrite (nth_indep _ [] (data x)) by now rewrite repeat_length.
  rewrite nth_repeat. f_equal. cbn [size_of fold_right]. lia.
Qed.

(** [elemental] spreads a per-element array over the quadrature points:
    for a one-dimensional [x] with one entry per element and weights [W]
    with [nqp] entries along their leading axis, the result has shape
    (elements, points) and holds [x[e]] at every point of element [e].
    Weights without an axis have no length: [TypeError]. *)
Theorem elemental_spreads W x :
  (shape W = [] -> insulated.elemental W x = Raise TypeError) /\
  (forall nqp rest nel,
      shape W = nqp :: rest -> shape x = [nel] -> wf x ->
      exists r,
        insulated.elemental W x = Ok r /\
        shape r = [nel; nqp] /\
        wf r /\
        forall e q, e < nel -> q < nqp -> item r [e; q] = item x [e]).
Proof.
  split.
  - intros HW. unfold insulated.elemental, len. now rewrite HW.
  - intros nqp rest nel. apply elemental_vector.
Qed.

End Elemental.

Section ConductionKernel.
Context {E : Type} {SR : Scalar E}.
Variable FormParameters : Type.
Variable w_of : FormParameters -> ndarray E.
Implicit Types (u du v dv a b p : ndarray E) (w : FormParameters)
  (s : list nat).

Lemma np_add_same_shape a b :
  shape a = shape b -> wf a -> wf b ->
  np_add a b = Ok (mk_ndarray (shape a) (zip_with add (data a) (data b))).
Proof.
  intros Hs Ha Hb. unfold np_add, broadcast_to.
  rewrite <- Hs, broadcast_shapes_same, pad_length_self.
  rewrite !tile_same; [reflexivity| |assumption].
  now rewrite Hs.
Qed.

Lemma np_add_scalar_l a (x : E) :
  wf a ->
  np_add (scalar x) a = Ok (mk_ndarray (shape a) (map (add x) (data a))).
Proof.
  intros Ha. unfold np_add, broadcast_to. cbn [shape data scalar].
  rewrite broadcast_shapes_comm, broadcast_shapes_scalar_r, pad_length_self.
  rewrite (tile_same (shape a)) by assumption.
  unfold pad. cbn [length]. rewrite Nat.sub_0_r, app_nil_r, tile_ones.
  rewrite <- Ha. now rewrite zip_with_repeat_l.
Qed.

Lemma slice_wf p dim s i :
  shape p = dim :: s -> wf p -> i < dim -> wf (slice i p).
Proof.
  unfold wf, slice. intros Hs Hw Hi. rewrite Hs in *. cbn [shape data tl].
  rewrite size_of_cons in Hw. rewrite length_firstn, length_skipn. nia.
Qed.

(** The running total of the builtin [sum] once it is an array. *)
Lemma py_sum_steps p dim s : forall (l : list nat) (acc : list E),
  shape p = dim :: s -> wf p ->
  (forall i, In i l -> i < dim) -> length acc = size_of s ->
  fold_left
    (fun r i => t <- r ;; x <- getitem p i ;; insulated.py_add t (PyArray x))
    l (Ok (PyArray (mk_ndarray s acc)))
  = Ok (PyArray (mk_ndarray s
          (fold_left (zip_with add) (map (fun i => data (slice i p)) l) acc))).
Proof.
  induction l as [|i l IH]; intros acc Hs Hw Hl Hacc; [reflexivity|].
  cbn [fold_left map rbind].
  assert (Hi : i < dim) by (apply Hl; now left).
  rewrite (getitem_slice p (n := dim)) by (rewrite ?Hs; trivial).
  cbn [rbind insulated.py_add].
  pose proof (slice_wf Hs Hw Hi) as Hws.
  rewrite np_add_same_shape;
    [|unfold slice; cbn [shape]; now rewrite Hs|exact Hacc|exact Hws].
  cbn [rmap rbind shape data].
  apply IH; [exact Hs|exact Hw|intros j Hj; apply Hl; now right|].
  rewrite zip_with_length, Hacc. unfold wf in Hws.
  rewrite Hws. unfold slice. cbn [shape]. rewrite Hs. cbn [tl]. lia.
Qed.

(** [sum(p)] over the leading axis, entry by entry. *)
Lemma py_sum_entries p dim s :
  shape p = dim :: s -> wf p ->
  exists t,
    insulated.py_sum p = Ok t /\
    (dim = 0 -> t = PyScalar zero) /\
    (0 < dim ->
     exists r, t = PyArray r /\ shape r = s /\ wf r /\
       forall idx, in_range s idx ->
         item r idx = sum_list (map (fun k => item p (k :: idx)) (seq 0 dim))).
Proof.
  intros Hs Hw. unfold insulated.py_sum. rewrite Hs.
  destruct dim as [|dim].
  - eexists. split; [reflexivity|]. split; [reflexivity|lia].
  - cbn [seq fold_left rbind].
    rewrite (getitem_slice p (n := S dim)) by (rewrite ?Hs; trivial; lia).
    cbn [rbind insulated.py_add].
    pose proof (@slice_wf p (S dim) s 0 Hs Hw (Nat.lt_0_succ dim)) as Hw0.
    rewrite np_add_scalar_l by exact Hw0. cbn [rmap rbind].
    assert (Hs0 : forall i, shape (slice i p) = s)
      by (intros i; unfold slice; cbn [shape]; now rewrite Hs).
    rewrite Hs0.
    assert (Hlen : forall i, i < S dim -> length (data (slice i p)) = size_of s)
      by (intros i Hi; pose proof (slice_wf Hs Hw Hi) as H;
          unfold wf in H; now rewrite Hs0 in H).
    rewrite (py_sum_steps (p := p) (dim := S dim));
      [|exact Hs|exact Hw|intros i Hi; apply in_seq in Hi; lia
       |rewrite length_map; apply Hlen; lia].
    eexists. split; [reflexivity|]. split; [discriminate|]. intros _.
    eexists. split; [reflexivity|]. split; [reflexivity|].
    assert (Hrows : forall r, In r (map (fun i => data (slice i p)) (seq 1 dim)) ->
                    length r = size_of s).
    { intros r Hr. apply in_map_iff in Hr as (i & <- & Hi).
      apply in_seq in Hi. apply Hlen. lia. }
    split.
    + unfold wf. cbn [shape data].
      apply fold_zip_length; [exact Hrows|].
      rewrite length_map. apply Hlen. lia.
    + intros idx Hidx. pose proof (ravel_lt Hidx) as Hr.
      unfold item at 1. cbn [shape data].
      rewrite (fold_zip_nth (len := size_of s));
        [|exact Hrows|rewrite length_map; apply Hlen; lia|exact Hr].
      unfold sum_list. cbn [seq map fold_left].
      rewrite (nth_indep _ zero (add zero zero))
        by (rewrite length_map, Hlen; lia).
      rewrite (map_nth (add zero)), map_map.
      assert (Hrow : forall k, nth (ravel s idx) (data (slice k p)) zero
                               = item p (k :: idx)).
      { intros k. unfold slice, item. cbn [data]. rewrite Hs. cbn [tl ravel].
        rewrite nth_firstn. apply Nat.ltb_lt in Hr as Hr'. rewrite Hr'.
        now rewrite nth_skipn. }
      rewrite Hrow. f_equal.
      apply map_ext. intros k. apply Hrow.
Qed.

End ConductionKernel.

Section ConductionProperties.
Context {E : Type} {SR : Scalar E}.
Variable FormParameters : Type.
Variable w_of : FormParameters -> ndarray E.
Implicit Types (u du v dv : ndarray E) (w : FormParameters) (s : list nat).

(** The conduction integrand, point by point: for gradients [du], [dv]
    with a leading axis of [dim] components over the point layout [s] of
    the coefficient [w.w], the kernel returns an array of layout [s] whose
    entry at a point is the coefficient there times the sum over the
    components of [du * dv] (with no component at all, the coefficient
    times zero). *)
Theorem conduction_entries u du v dv w dim s :
  shape du = dim :: s -> shape dv = dim :: s -> wf du -> wf dv ->
  shape (w_of w) = s -> wf (w_of w) ->
  exists r,
    insulated.conduction w_of u du v dv w = Ok (PyArray r) /\
    shape r = s /\
    forall idx, in_range s idx ->
      item r idx
      = mul (item (w_of w) idx)
            (sum_list (map (fun k => mul (item du (k :: idx)) (item dv (k :: idx)))
                           (seq 0 dim))).
Proof.
  intros Hdu Hdv Hwu Hwv Hs Hww.
  unfold insulated.conduction.
  assert (Hm : multiply du dv
               = Ok (mk_ndarray (shape du) (zip_with mul (data du) (data dv))))
    by (apply multiply_same_shape; [congruence|assumption|assumption]).
  set (p := mk_ndarray (shape du) (zip_with mul (data du) (data dv))) in *.
  assert (Hwp : wf p) by now apply multiply_wf with (a := du) (b := dv).
  assert (Hsp : shape p = dim :: s) by exact Hdu.
  assert (Hp : forall k idx, k < dim -> in_range s idx ->
               item p (k :: idx) = mul (item du (k :: idx)) (item dv (k :: idx))).
  { intros k idx Hk Hidx.
    assert (Hin : in_range (dim :: s) (k :: idx)) by now constructor.
    rewrite (multiply_item (a := du) (b := dv) (r := p)); trivial;
      [|now rewrite Hsp].
    f_equal.
    - apply (bitem_suffix du []). now rewrite Hdu.
    - apply (bitem_suffix dv []). now rewrite Hdv. }
  rewrite Hm. cbn [rbind].
  destruct (py_sum_entries Hsp Hwp) as (t & Ht & Hzero & Hpos).
  rewrite Ht. cbn [rbind].
  destruct dim as [|dim].
  - rewrite (Hzero eq_refl). cbn [raw_mul].
    rewrite multiply_scalar_r by exact Hww. cbn [rmap rbind].
    eexists. split; [reflexivity|]. split; [exact Hs|].
    intros idx Hidx. unfold item at 1. cbn [shape data seq map].
    pose proof (ravel_lt Hidx) as Hr.
    rewrite Hs.
    rewrite (nth_indep _ zero (mul zero zero))
      by (rewrite length_map; unfold wf in Hww; rewrite Hww, Hs; exact Hr).
    rewrite (map_nth (fun e => mul e zero)). unfold item. now rewrite Hs.
  - destruct (Hpos (Nat.lt_0_succ dim)) as (r0 & -> & Hs0 & Hw0 & Hitem).
    cbn [raw_mul].
    rewrite multiply_same_shape by (trivial; congruence).
    cbn [rmap rbind].
    eexists. split; [reflexivity|]. split; [exact Hs|].
    intros idx Hidx. unfold item at 1. cbn [shape data].
    pose proof (ravel_lt Hidx) as Hr. rewrite Hs.
    rewrite zip_with_nth
      by (unfold wf in Hww, Hw0; rewrite ?Hww, ?Hw0, ?Hs, ?Hs0; exact Hr).
    f_equal; [unfold item; now rewrite Hs|].
    specialize (Hitem idx Hidx). unfold item at 1 in Hitem.
    rewrite Hs0 in Hitem. rewrite Hitem. f_equal.
    apply map_ext_in. intros k Hk. apply in_seq in Hk. apply Hp; [lia|exact Hidx].
Qed.

(** The conduction integrand does not change when trial and test
    functions are exchanged. *)
Theorem conduction_symmetric u du v dv w :
  (forall x y : E, mul x y = mul y x) ->
  insulated.conduction w_of u du v dv w = insulated.conduction w_of v dv u du w.
Proof.
  intros Hmul. unfold insulated.conduction.
  now rewrite (multiply_comm Hmul du dv).
Qed.

(** The generation integrand with a per-element coefficient spread by
    [elemental]: at every quadrature point of element [e] it is the
    coefficient of [e] times the test function there. *)
Theorem generation_elemental (W x : ndarray E) v dv w nqp rest nel :
  shape W = nqp :: rest -> shape x = [nel] -> wf x ->
  insulated.elemental W x = Ok (w_of w) ->
  shape v = [nel; nqp] -> wf v ->
  exists r,
    insulated.generation w_of v dv w = Ok r /\
    shape r = [nel; nqp] /\
    forall e q, e < nel -> q < nqp ->
      item r [e; q] = mul (item x [e]) (item v [e; q]).
Proof.
  intros HW Hx Hwx Hel Hv Hwv.
  destruct (@elemental_vector _ _ W x nqp rest nel HW Hx Hwx)
    as (c & Hc & Hsc & Hwc & Hitem).
  rewrite Hel in Hc. injection Hc as <-.
  unfold insulated.generation.
  rewrite multiply_same_shape by (trivial; congruence).
  eexists. split; [reflexivity|]. split; [exact Hsc|].
  intros e q He Hq. rewrite <- (Hitem e q He Hq).
  unfold item. cbn [shape data]. rewrite Hsc, Hv.
  apply zip_with_nth; unfold wf in Hwc, Hwv;
    rewrite ?Hwc, ?Hwv, ?Hsc, ?Hv; cbn; nia.
Qed.

End ConductionProperties.

(* ================================================================== *)
(** * Every outcome of a product of two fields *)

Section ProductOutcome.
Context {E : Type} {SR : Scalar E}.
Implicit Types (a b : DiscreteField E).

(** A product of two fields without values is a [TypeError].  When
    exactly one value is absent, numpy multiplies the other value by
    [None] entry by entry: a [TypeError] as soon as the value has an
    entry, an empty array of the shape of the value when it has none.
    When both values are present the product is a [ValueError] if the two
    shapes do not broadcast, and otherwise an array of the broadcast
    shape, well formed when the operands are. *)
Theorem mul_outcome a b :
  match value a, value b with
  | Some va, Some vb =>
      match broadcast_shapes (shape va) (shape vb) with
      | Some s =>
          exists p,
            __mul__ a (PyField b) = Ok (PyArray p) /\
            shape p = s /\
            (wf va -> wf vb -> wf p)
      | None => __mul__ a (PyField b) = Raise ValueError
      end
  | Some v, None | None, Some v =>
      __mul__ a (PyField b)
      = if size_of (shape v) =? 0
        then Ok (PyArray (mk_ndarray (shape v) []))
        else Raise TypeError
  | None, None => __mul__ a (PyField b) = Raise TypeError
  end.
Proof.
  unfold __mul__, f.
  destruct (value a) as [va|], (value b) as [vb|]; try reflexivity.
  cbn [of_option raw_mul].
  destruct (multiply va vb) as [p|e] eqn:Hm; unfold multiply in Hm;
    destruct (broadcast_shapes (shape va) (shape vb)) as [s|] eqn:Hb;
    try discriminate Hm.
  - exists p. split; [reflexivity|]. split; [now injection Hm as <-|].
    intros Ha Hb'. apply multiply_wf with (a := va) (b := vb); trivial.
    unfold multiply. now rewrite Hb.
  - now injection Hm as <-.
Qed.

End ProductOutcome.

(* ================================================================== *)
(** * Instances *)

Lemma split_keeps_accessors_witness :
  slice_of_slot 0 (df gap_field) (df gap_piece0).
Proof.
  refine (proj1 (proj2 (@split_keeps_accessors Z Z_Scalar gap_field
                          [gap_piece0; gap_piece1] 0 gap_piece0
                          eq_refl eq_refl)) _).
  discriminate.
Defined.

Lemma zeros_like_idempotent_witness :
  discrete_field.zeros_like
    (mk_DiscreteField (Some (numpy.zeros_like grid23)) None
       (Some (numpy.zeros_like grid23')) None None)
  = Ok (mk_DiscreteField (Some (numpy.zeros_like grid23)) None
          (Some (numpy.zeros_like grid23')) None None).
Proof.
  exact (@zeros_like_idempotent Z Z_Scalar gap_field _ eq_refl).
Defined.

Lemma split_zeros_like_witness :
  exists l',
    _split (mk_DiscreteField (Some (numpy.zeros_like grid23)) None
              (Some (numpy.zeros_like grid23')) None None) = Ok l' /\
    mapM discrete_field.zeros_like [gap_piece0; gap_piece1] = Ok l'.
Proof.
  exact (@split_zeros_like Z Z_Scalar gap_field [gap_piece0; gap_piece1] _
           eq_refl eq_refl).
Defined.

Lemma kernel_reads_field_value_witness :
  kernel field_kernel tt grid23' [1] = kernel value_kernel tt grid23' [1].
Proof.
  exact (@kernel_reads_field_value Z Z_Scalar call_log unit field_kernel
           value_kernel tt grid23' [1] [1; 2] field_a eq_refl eq_refl).
Defined.


Lemma assemble_component_axis_witness :
  exists out,
    assemble (fun b : ndarray Z => b) logging_parameters component_kernel
      grid23 None tt (Some 1%Z) []
    = ([1; 2], Ok out) /\
    shape out = [2; 3] /\
    forall j q, j < 2 -> q < 3 ->
      item out [j; q]
      = sum_list (map (fun e => mul (item components223 [j; e; q])
                                    (item grid23 [e; q]))
                      (seq 0 2)).
Proof.
  exact (@assemble_component_axis Z Z_Scalar call_log (ndarray Z) unit unit
           (fun b => b) logging_parameters component_kernel grid23 tt
           (Some 1%Z) [] [1] [1; 2] tt (PyArray components223) components223
           2 2 3 eq_refl eq_refl eq_refl eq_refl eq_refl eq_refl eq_refl).
Defined.

Lemma conduction_entries_witness :
  exists r,
    insulated.conduction (fun w : ndarray Z => w) grid23 components223
      grid23' components223' grid23
    = Ok (PyArray r) /\
    shape r = [2; 3] /\
    forall idx, in_range [2; 3] idx ->
      item r idx
      = mul (item grid23 idx)
            (sum_list (map (fun k => mul (item components223 (k :: idx))
                                         (item components223' (k :: idx)))
                           (seq 0 2))).
Proof.
  exact (@conduction_entries Z Z_Scalar (ndarray Z) (fun w => w) grid23
           components223 grid23' components223' grid23 2 [2; 3]
           eq_refl eq_refl eq_refl eq_refl eq_refl eq_refl).
Defined.

Lemma conduction_symmetric_witness :
  insulated.conduction (fun w : ndarray Z => w) grid23 components223 grid23'
    components223' grid23
  = insulated.conduction (fun w : ndarray Z => w) grid23' components223' grid23
      components223 grid23.
Proof.
  exact (@conduction_symmetric Z Z_Scalar (ndarray Z) (fun w => w) grid23
           components223 grid23' components223' grid23 Z.mul_comm).
Defined.

Lemma generation_elemental_witness :
  exists r,
    insulated.generation (fun w : ndarray Z => w) grid23 grid23'
      (mk_ndarray [2; 3] [101; 101; 101; 11; 11; 11]%Z)
    = Ok r /\
    shape r = [2; 3] /\
    forall e q, e < 2 -> q < 3 ->
      item r [e; q] = mul (item per_element2 [e]) (item grid23 [e; q]).
Proof.
  exact (@generation_elemental Z Z_Scalar (ndarray Z) (fun w => w) weights3
           per_element2 grid23 grid23'
           (mk_ndarray [2; 3] [101; 101; 101; 11; 11; 11]%Z) 3 [] 2
           eq_refl eq_refl eq_refl eq_refl eq_refl eq_refl).
Defined.
